(** * seconn: an encrypted, framed stream over a net.Conn

    A shallow embedding of the AEAD variant of package [seconn]
    (AES-GCM halves, HKDF key schedule, in-band rekey) together with the
    properties of its record layer, handshake and auth tokens.

    Go values are modelled as follows.
    - [[]byte] and [*[32]byte] are [list byte]; a nil pointer, nil slice
      field or nil interface is [None].
    - [uint32] and [int] are [Z], with the wrap-around written out.
    - a method on [*Conn] is a function of the machine state (the
      connection and the process-wide environment) that returns either a
      normal result with the new state, or a panic.
    - the carrier behind [net.Conn], [crypto/rand.Reader] and the clock are
      scripted: they are data that say what every call will answer.
    - the primitives of [crypto/...] are the fields of a class. *)

From Stdlib Require Import List ZArith Lia Bool.
From Stdlib Require Import Strings.Byte.
Import ListNotations.
Local Open Scope Z_scope.

(** ** Bytes and fixed-width integers *)

Definition Z_of_byte (b : byte) : Z := Z.of_N (Byte.to_N b).

Definition byte_of_Z (z : Z) : byte :=
  match Byte.of_N (Z.to_N (z mod 256)) with
  | Some b => b
  | None => x00
  end.

(** [uint32(x)] and [int(x)] conversions: reduction to the width. *)
Definition uint32 (z : Z) : Z := z mod 2 ^ 32.
Definition int (z : Z) : Z := (z + 2 ^ 63) mod 2 ^ 64 - 2 ^ 63.

(** [binary.BigEndian.PutUint32] *)
Definition PutUint32 (v : Z) : list byte :=
  [ byte_of_Z (Z.shiftr v 24); byte_of_Z (Z.shiftr v 16);
    byte_of_Z (Z.shiftr v 8); byte_of_Z v ].

(** [binary.BigEndian.Uint32]; indexing a slice shorter than four bytes
    panics, which is [None] here. *)
Definition Uint32 (b : list byte) : option Z :=
  match b with
  | b0 :: b1 :: b2 :: b3 :: _ =>
      Some (Z.lor (Z.lor (Z.lor (Z_of_byte b3) (Z.shiftl (Z_of_byte b2) 8))
                         (Z.shiftl (Z_of_byte b1) 16))
                  (Z.shiftl (Z_of_byte b0) 24))
  | _ => None
  end.

(** [make([]byte, n)] *)
Definition make (n : nat) : list byte := repeat x00 n.

(** Writing [data] through [dst[:0]] with [append]: the backing array of
    [dst] is reused when the data fit in it (the capacity of a slice made
    by [make] is its length), otherwise a fresh array is allocated and
    [dst] keeps its content. *)
Definition overwrite (dst data : list byte) : list byte :=
  if (length data <=? length dst)%nat
  then data ++ skipn (length data) dst
  else dst.

(** ** Errors *)

Inductive error : Type :=
| EOF                       (* io.EOF *)
| ErrUnexpectedEOF          (* io.ErrUnexpectedEOF *)
| ErrShortWrite             (* io.ErrShortWrite *)
| ErrShortBuffer            (* io.ErrShortBuffer *)
| ErrBadRekey               (* seconn.ErrBadRekey *)
| ErrProtocolError          (* seconn.ErrProtocolError *)
| ErrBadHeader (cause : error) (* errors.Cause(ErrBadHeader, err) *)
| ErrOpen                   (* cipher: message authentication failed *)
| KeySizeError (n : nat)    (* aes.KeySizeError *)
| ErrNet (code : nat).      (* a failure of the carrier itself *)

(** ** The carrier: a scripted net.Conn *)

Record NetConn : Type := mkNetConn {
  rx : list (list byte);  (* what the successive Reads will hand over *)
  rx_end : error;         (* what Read reports once [rx] is used up *)
  tx : list byte;         (* every byte the carrier accepted *)
  tx_room : option nat;   (* how many more bytes it accepts; None: all *)
  tx_fail : option error  (* reported with a write that does not fit;
                             None: a silent short write *)
}.

(** What is left to read after [n] bytes were taken from the segment
    [seg]. *)
Definition rest_segs (n : nat) (seg : list byte) (rest : list (list byte))
  : list (list byte) :=
  match skipn n seg with [] => rest | tl => tl :: rest end.

(** [net.Conn.Read(p)] with [len(p) = n]. *)
Definition conn_Read (u : NetConn) (n : nat)
  : list byte * option error * NetConn :=
  match n with
  | O => ([], None, u)
  | _ =>
    match rx u with
    | [] => ([], Some (rx_end u), u)
    | seg :: rest =>
        (firstn n seg, None,
         mkNetConn (rest_segs n seg rest) (rx_end u) (tx u) (tx_room u)
                   (tx_fail u))
    end
  end.

(** [net.Conn.Write(p)] *)
Definition conn_Write (u : NetConn) (p : list byte)
  : nat * option error * NetConn :=
  match tx_room u with
  | None =>
      (length p, None,
       mkNetConn (rx u) (rx_end u) (tx u ++ p) None (tx_fail u))
  | Some room =>
      if (length p <=? room)%nat
      then (length p, None,
            mkNetConn (rx u) (rx_end u) (tx u ++ p)
                      (Some (room - length p)%nat) (tx_fail u))
      else (room, tx_fail u,
            mkNetConn (rx u) (rx_end u) (tx u ++ firstn room p)
                      (Some O) (tx_fail u))
  end.

(** The loop of [io.ReadAtLeast(r, buf, len(buf))] over the script: Read
    is called on the rest of the buffer until it is full or Read fails. *)
Fixpoint readLoop (segs : list (list byte)) (fin : error) (n : nat)
  : list byte * option error * list (list byte) :=
  match n with
  | O => ([], None, segs)
  | _ =>
    match segs with
    | [] => ([], Some fin, [])
    | seg :: rest =>
        if (n <=? length seg)%nat
        then (firstn n seg, None, rest_segs n seg rest)
        else let '(d, e, segs') := readLoop rest fin (n - length seg) in
             (seg ++ d, e, segs')
    end
  end.

(** [io.ReadFull(r, buf)]: an EOF after some bytes becomes
    [ErrUnexpectedEOF]. *)
Definition io_ReadFull (u : NetConn) (n : nat)
  : list byte * option error * NetConn :=
  let '(d, e, segs') := readLoop (rx u) (rx_end u) n in
  let e' := match e, d with
            | Some EOF, _ :: _ => Some ErrUnexpectedEOF
            | _, _ => e
            end in
  (d, e', mkNetConn segs' (rx_end u) (tx u) (tx_room u) (tx_fail u)).

(** The bytes [io.CopyN(dst, r, n)] moves from the carrier to [dst]: it
    reads through a LimitReader until [n] bytes came or a Read fails, and
    reports the failure (EOF included) when fewer than [n] bytes came. *)
Definition io_CopyN (u : NetConn) (n : nat)
  : list byte * option error * NetConn :=
  let '(d, e, segs') := readLoop (rx u) (rx_end u) n in
  (d, e, mkNetConn segs' (rx_end u) (tx u) (tx_room u) (tx_fail u)).

(** [binary.Read(r, binary.BigEndian, &v)] for a [uint32] variable that
    holds [v]: the variable keeps its value when the read fails. *)
Definition binary_Read (u : NetConn) (v : Z) : Z * option error * NetConn :=
  let '(d, e, u') := io_ReadFull u 4 in
  match e with
  | Some err => (v, Some err, u')
  | None => (match Uint32 d with Some w => w | None => v end, None, u')
  end.

(** [binary.Write(w, binary.BigEndian, v)] for a [uint32]: the count that
    Write returns is dropped. *)
Definition binary_Write (u : NetConn) (v : Z) : option error * NetConn :=
  let '(_, e, u') := conn_Write u (PutUint32 v) in (e, u').

(** ** bytes.Buffer: the unread part of the buffer *)

Definition Buffer : Type := list byte.

(** [b.Read(p)] with [len(p) = n] *)
Definition Buffer_Read (b : Buffer) (n : nat)
  : list byte * option error * Buffer :=
  match b with
  | [] => ([], match n with O => None | _ => Some EOF end, [])
  | _ => (firstn n b, None, skipn n b)
  end.

(** [b.Truncate(n)] panics when [n] exceeds the unread length. *)
Definition Buffer_Truncate (b : Buffer) (n : nat) : option Buffer :=
  if (n <=? length b)%nat then Some (firstn n b) else None.

(** ** The primitives of crypto/aes, crypto/cipher, crypto/hmac,
       go.crypto/curve25519 and go.crypto/hkdf *)

Class Crypto : Type := {
  (* cipher.AEAD of cipher.NewGCM(aes.NewCipher(key)); the additional data
     are nil at every call of the package and are left out *)
  NonceSize : nat;
  Overhead : nat;
  Seal : list byte -> list byte -> list byte -> list byte;
  Open : list byte -> list byte -> list byte -> option (list byte);
  (* curve25519.ScalarBaseMult(dst, in), curve25519.ScalarMult(dst, in, base) *)
  ScalarBaseMult : list byte -> list byte;
  ScalarMult : list byte -> list byte -> list byte;
  (* the bytes that hkdf.New(sha512.New, secret, salt, info) yields *)
  hkdf_New : list byte -> list byte -> list byte -> list byte;
  (* hmac.New(sha256.New, key) fed with one message, then Sum(nil) *)
  hmac_sha256 : list byte -> list byte -> list byte
}.

(** A [[32]byte] array filled from a slice: exactly 32 bytes. *)
Definition array32 (l : list byte) : list byte := firstn 32 (l ++ make 32).

(** The two curve25519 calls, whose destination is a [*[32]byte]. *)
Definition curve25519_ScalarBaseMult {crypto : Crypto} (sk : list byte)
  : list byte := array32 (ScalarBaseMult sk).
Definition curve25519_ScalarMult {crypto : Crypto} (sk base : list byte)
  : list byte := array32 (ScalarMult sk base).

(** [aes.BlockSize] and the package constants *)
Definition aes_BlockSize : nat := 16.
Definition cKeySize : nat := 32.
Definition pData : Z := 0.
Definition pStartRekey : Z := 1.
Definition pClientKeyUpdate : Z := 2.
Definition pFinalizeRekey : Z := 3.

(** The header word of a record, as sendBuffer builds it
    ([cmd | uint32(buf.Len()<<8)]), as Write builds it for a chunk
    ([uint32(len(chunk)) << 8]), and as Read takes it apart
    ([cnt & 0xff] and [cnt >> 8]). *)
Definition sendBuffer_headerInt (cmd : Z) (len : nat) : Z :=
  Z.lor cmd (uint32 (Z.shiftl (Z.of_nat len) 8)).
Definition Write_headerInt (len : nat) : Z :=
  uint32 (Z.shiftl (uint32 (Z.of_nat len)) 8).
Definition header_cmd (h : Z) : Z := Z.land h 255.
Definition header_cnt (h : Z) : Z := Z.shiftr h 8.

(** ** The connection *)

Record half : Type := mkHalf {
  aead : option (list byte);  (* the AEAD, known by its key; None: nil *)
  seq : list byte
}.

Record Conn : Type := mkConn {
  netConn : NetConn;                 (* the embedded net.Conn *)
  privKey : option (list byte);
  pubKey : option (list byte);
  peerKey : option (list byte);
  shared : option (list byte);
  server : bool;
  writeBuf : list byte;
  readBuf : Buffer;
  rekeyAfter : Z;                    (* time.Time, in nanoseconds *)
  rekeyLeft : Z;
  read : option half;
  write : option half;
  nextPubKey : option (list byte);
  nextPrivKey : option (list byte);
  nextPeerKey : option (list byte);
  nextShared : option (list byte);
  nextKeys : option (list (list byte));
  nextIv : option (list byte);
  headerBuf : list byte
}.

(** The package-level variables, [crypto/rand.Reader] and the clock. *)
Record Env : Type := mkEnv {
  WriteBufferSize : Z;
  RekeyAfterBytes : Z;
  KeyValidityPeriod : Z;             (* time.Duration, in nanoseconds *)
  rand_Reader : list byte;           (* the bytes the generator still has *)
  now : Z                            (* what time.Now() answers *)
}.

Record State : Type := mkState { conn : Conn; env : Env }.

(** Field updates of [Conn]. *)
Definition set_netConn (v : NetConn) (c : Conn) : Conn :=
  mkConn v (privKey c) (pubKey c) (peerKey c) (shared c) (server c)
         (writeBuf c) (readBuf c) (rekeyAfter c) (rekeyLeft c) (read c)
         (write c) (nextPubKey c) (nextPrivKey c) (nextPeerKey c)
         (nextShared c) (nextKeys c) (nextIv c) (headerBuf c).
Definition set_privKey (v : option (list byte)) (c : Conn) : Conn :=
  mkConn (netConn c) v (pubKey c) (peerKey c) (shared c) (server c)
         (writeBuf c) (readBuf c) (rekeyAfter c) (rekeyLeft c) (read c)
         (write c) (nextPubKey c) (nextPrivKey c) (nextPeerKey c)
         (nextShared c) (nextKeys c) (nextIv c) (headerBuf c).
Definition set_pubKey (v : option (list byte)) (c : Conn) : Conn :=
  mkConn (netConn c) (privKey c) v (peerKey c) (shared c) (server c)
         (writeBuf c) (readBuf c) (rekeyAfter c) (rekeyLeft c) (read c)
         (write c) (nextPubKey c) (nextPrivKey c) (nextPeerKey c)
         (nextShared c) (nextKeys c) (nextIv c) (headerBuf c).
Definition set_peerKey (v : option (list byte)) (c : Conn) : Conn :=
  mkConn (netConn c) (privKey c) (pubKey c) v (shared c) (server c)
         (writeBuf c) (readBuf c) (rekeyAfter c) (rekeyLeft c) (read c)
         (write c) (nextPubKey c) (nextPrivKey c) (nextPeerKey c)
         (nextShared c) (nextKeys c) (nextIv c) (headerBuf c).
Definition set_shared (v : option (list byte)) (c : Conn) : Conn :=
  mkConn (netConn c) (privKey c) (pubKey c) (peerKey c) v (server c)
         (writeBuf c) (readBuf c) (rekeyAfter c) (rekeyLeft c) (read c)
         (write c) (nextPubKey c) (nextPrivKey c) (nextPeerKey c)
         (nextShared c) (nextKeys c) (nextIv c) (headerBuf c).
Definition set_server (v : bool) (c : Conn) : Conn :=
  mkConn (netConn c) (privKey c) (pubKey c) (peerKey c) (shared c) v
         (writeBuf c) (readBuf c) (rekeyAfter c) (rekeyLeft c) (read c)
         (write c) (nextPubKey c) (nextPrivKey c) (nextPeerKey c)
         (nextShared c) (nextKeys c) (nextIv c) (headerBuf c).
Definition set_writeBuf (v : list byte) (c : Conn) : Conn :=
  mkConn (netConn c) (privKey c) (pubKey c) (peerKey c) (shared c) (server c)
         v (readBuf c) (rekeyAfter c) (rekeyLeft c) (read c)
         (write c) (nextPubKey c) (nextPrivKey c) (nextPeerKey c)
         (nextShared c) (nextKeys c) (nextIv c) (headerBuf c).
Definition set_readBuf (v : Buffer) (c : Conn) : Conn :=
  mkConn (netConn c) (privKey c) (pubKey c) (peerKey c) (shared c) (server c)
         (writeBuf c) v (rekeyAfter c) (rekeyLeft c) (read c)
         (write c) (nextPubKey c) (nextPrivKey c) (nextPeerKey c)
         (nextShared c) (nextKeys c) (nextIv c) (headerBuf c).
Definition set_rekeyAfter (v : Z) (c : Conn) : Conn :=
  mkConn (netConn c) (privKey c) (pubKey c) (peerKey c) (shared c) (server c)
         (writeBuf c) (readBuf c) v (rekeyLeft c) (read c)
         (write c) (nextPubKey c) (nextPrivKey c) (nextPeerKey c)
         (nextShared c) (nextKeys c) (nextIv c) (headerBuf c).
Definition set_rekeyLeft (v : Z) (c : Conn) : Conn :=
  mkConn (netConn c) (privKey c) (pubKey c) (peerKey c) (shared c) (server c)
         (writeBuf c) (readBuf c) (rekeyAfter c) v (read c)
         (write c) (nextPubKey c) (nextPrivKey c) (nextPeerKey c)
         (nextShared c) (nextKeys c) (nextIv c) (headerBuf c).
Definition set_read (v : option half) (c : Conn) : Conn :=
  mkConn (netConn c) (privKey c) (pubKey c) (peerKey c) (shared c) (server c)
         (writeBuf c) (readBuf c) (rekeyAfter c) (rekeyLeft c) v
         (write c) (nextPubKey c) (nextPrivKey c) (nextPeerKey c)
         (nextShared c) (nextKeys c) (nextIv c) (headerBuf c).
Definition set_write (v : option half) (c : Conn) : Conn :=
  mkConn (netConn c) (privKey c) (pubKey c) (peerKey c) (shared c) (server c)
         (writeBuf c) (readBuf c) (rekeyAfter c) (rekeyLeft c) (read c)
         v (nextPubKey c) (nextPrivKey c) (nextPeerKey c)
         (nextShared c) (nextKeys c) (nextIv c) (headerBuf c).
Definition set_nextPubKey (v : option (list byte)) (c : Conn) : Conn :=
  mkConn (netConn c) (privKey c) (pubKey c) (peerKey c) (shared c) (server c)
         (writeBuf c) (readBuf c) (rekeyAfter c) (rekeyLeft c) (read c)
         (write c) v (nextPrivKey c) (nextPeerKey c)
         (nextShared c) (nextKeys c) (nextIv c) (headerBuf c).
Definition set_nextPrivKey (v : option (list byte)) (c : Conn) : Conn :=
  mkConn (netConn c) (privKey c) (pubKey c) (peerKey c) (shared c) (server c)
         (writeBuf c) (readBuf c) (rekeyAfter c) (rekeyLeft c) (read c)
         (write c) (nextPubKey c) v (nextPeerKey c)
         (nextShared c) (nextKeys c) (nextIv c) (headerBuf c).
Definition set_nextPeerKey (v : option (list byte)) (c : Conn) : Conn :=
  mkConn (netConn c) (privKey c) (pubKey c) (peerKey c) (shared c) (server c)
         (writeBuf c) (readBuf c) (rekeyAfter c) (rekeyLeft c) (read c)
         (write c) (nextPubKey c) (nextPrivKey c) v
         (nextShared c) (nextKeys c) (nextIv c) (headerBuf c).
Definition set_nextShared (v : option (list byte)) (c : Conn) : Conn :=
  mkConn (netConn c) (privKey c) (pubKey c) (peerKey c) (shared c) (server c)
         (writeBuf c) (readBuf c) (rekeyAfter c) (rekeyLeft c) (read c)
         (write c) (nextPubKey c) (nextPrivKey c) (nextPeerKey c)
         v (nextKeys c) (nextIv c) (headerBuf c).
Definition set_nextKeys (v : option (list (list byte))) (c : Conn) : Conn :=
  mkConn (netConn c) (privKey c) (pubKey c) (peerKey c) (shared c) (server c)
         (writeBuf c) (readBuf c) (rekeyAfter c) (rekeyLeft c) (read c)
         (write c) (nextPubKey c) (nextPrivKey c) (nextPeerKey c)
         (nextShared c) v (nextIv c) (headerBuf c).
Definition set_nextIv (v : option (list byte)) (c : Conn) : Conn :=
  mkConn (netConn c) (privKey c) (pubKey c) (peerKey c) (shared c) (server c)
         (writeBuf c) (readBuf c) (rekeyAfter c) (rekeyLeft c) (read c)
         (write c) (nextPubKey c) (nextPrivKey c) (nextPeerKey c)
         (nextShared c) (nextKeys c) v (headerBuf c).
Definition set_headerBuf (v : list byte) (c : Conn) : Conn :=
  mkConn (netConn c) (privKey c) (pubKey c) (peerKey c) (shared c) (server c)
         (writeBuf c) (readBuf c) (rekeyAfter c) (rekeyLeft c) (read c)
         (write c) (nextPubKey c) (nextPrivKey c) (nextPeerKey c)
         (nextShared c) (nextKeys c) (nextIv c) v.

Definition set_rand_Reader (v : list byte) (e : Env) : Env :=
  mkEnv (WriteBufferSize e) (RekeyAfterBytes e) (KeyValidityPeriod e) v (now e).

(** ** Running a method: state passing with panics *)

Inductive outcome (A : Type) : Type :=
| Normal (a : A) (s : State)   (* the call returned [a] *)
| Panicked                     (* a run-time panic unwound the call *)
| OutOfFuel.                   (* the loop bound of the model was reached *)
Arguments Normal {A} a s.
Arguments Panicked {A}.
Arguments OutOfFuel {A}.

Definition M (A : Type) : Type := State -> outcome A.

Definition ret {A} (a : A) : M A := fun s => Normal a s.
Definition bind {A B} (m : M A) (k : A -> M B) : M B :=
  fun s => match m s with
           | Normal a s' => k a s'
           | Panicked => Panicked
           | OutOfFuel => OutOfFuel
           end.
Definition panic {A} : M A := fun _ => Panicked.

Declare Scope go_scope.
Delimit Scope go_scope with go.
Notation "x <- m ;; k" := (bind m (fun x => k))
  (at level 61, m at next level, right associativity) : go_scope.
Notation "m ;;; k" := (bind m (fun _ => k))
  (at level 61, right associativity) : go_scope.
Notation "' pat <- m ;; k" := (bind m (fun x => match x with pat => k end))
  (at level 61, pat pattern, m at next level, right associativity) : go_scope.
Local Open Scope go_scope.

Definition getc : M Conn := fun s => Normal (conn s) s.
Definition gete : M Env := fun s => Normal (env s) s.
Definition modc (f : Conn -> Conn) : M unit :=
  fun s => Normal tt (mkState (f (conn s)) (env s)).
Definition mode (f : Env -> Env) : M unit :=
  fun s => Normal tt (mkState (conn s) (f (env s))).

(** Dereferencing: a nil pointer panics. *)
Definition deref {A} (p : option A) : M A :=
  match p with Some a => ret a | None => panic end.

(** Calls on the embedded carrier. *)
Definition net_Write (p : list byte) : M (nat * option error) :=
  c <- getc ;;
  let '(n, e, u) := conn_Write (netConn c) p in
  modc (set_netConn u) ;;; ret (n, e).
Definition net_Read (n : nat) : M (list byte * option error) :=
  c <- getc ;;
  let '(d, e, u) := conn_Read (netConn c) n in
  modc (set_netConn u) ;;; ret (d, e).
Definition net_ReadFull (n : nat) : M (list byte * option error) :=
  c <- getc ;;
  let '(d, e, u) := io_ReadFull (netConn c) n in
  modc (set_netConn u) ;;; ret (d, e).
Definition net_binary_Write (v : Z) : M (option error) :=
  c <- getc ;;
  let '(e, u) := binary_Write (netConn c) v in
  modc (set_netConn u) ;;; ret e.
Definition net_binary_Read (v : Z) : M (Z * option error) :=
  c <- getc ;;
  let '(w, e, u) := binary_Read (netConn c) v in
  modc (set_netConn u) ;;; ret (w, e).

(** [io.ReadFull(rand.Reader, buf)] with [len(buf) = n] *)
Definition rand_ReadFull (n : nat) : M (list byte * option error) :=
  e <- gete ;;
  let r := rand_Reader e in
  if (n <=? length r)%nat
  then mode (set_rand_Reader (skipn n r)) ;;; ret (firstn n r, None)
  else mode (set_rand_Reader []) ;;;
       ret (r, Some match r with [] => EOF | _ => ErrUnexpectedEOF end).

(** ** The package, over any implementation of the primitives *)

Section Seconn.

Context {crypto : Crypto}.

(** [func (h *half) setup(key, iv []byte) error], called on the pointer
    [h]: aes.NewCipher refuses a key that is not 16, 24 or 32 bytes long
    before [h] is touched. *)
Definition setup (h : option half) (key iv : list byte)
  : M (option error * option half) :=
  if ((length key =? 16) || (length key =? 24) || (length key =? 32))%nat
  then match h with
       | None => panic
       | Some _ => ret (None, Some (mkHalf (Some key) (make NonceSize)))
       end
  else ret (Some (KeySizeError (length key)), h).

(** The loop of [func (h *half) incSeq()] over [h.seq]. *)
Fixpoint incSeq (s : list byte) : list byte :=
  match s with
  | [] => []
  | c :: rest =>
      let c' := byte_of_Z (Z_of_byte c + 1) in
      if Z_of_byte c <? 255 then c' :: rest else c' :: incSeq rest
  end.

Definition half_incSeq (h : option half) : M (option half) :=
  h' <- deref h ;; ret (Some (mkHalf (aead h') (incSeq (seq h')))).

Definition read_setup (key iv : list byte) : M (option error) :=
  c <- getc ;;
  '(e, h) <- setup (read c) key iv ;;
  modc (set_read h) ;;; ret e.
Definition write_setup (key iv : list byte) : M (option error) :=
  c <- getc ;;
  '(e, h) <- setup (write c) key iv ;;
  modc (set_write h) ;;; ret e.
Definition read_incSeq : M unit :=
  c <- getc ;; h <- half_incSeq (read c) ;; modc (set_read h).
Definition write_incSeq : M unit :=
  c <- getc ;; h <- half_incSeq (write c) ;; modc (set_write h).

(** [func GenerateKey(rand io.Reader) (publicKey, privateKey *[32]byte,
    err error)] on [rand.Reader] *)
Definition GenerateKey
  : M (option (list byte) * option (list byte) * option error) :=
  '(d, err) <- rand_ReadFull 32 ;;
  match err with
  | Some e => ret (None, None, Some e)
  | None => ret (Some (curve25519_ScalarBaseMult d), Some d, None)
  end.

(** [func NewConn(c net.Conn)], which returns the connection and a nil
    error *)
Definition NewConn (u : NetConn) : Conn * option error :=
  (mkConn u None None None None false (make 128) [] 0 0 None None
          None None None None None None [], None).

(** [func (c *Conn) RekeyNext()] *)
Definition RekeyNext : M unit := modc (set_rekeyLeft 0).

(** [func makeKeys(shared, salt, info []byte) [][]byte]: two reads of
    aes.BlockSize bytes from the HKDF stream; a short read panics. *)
Definition makeKeys (shared salt info : list byte) : M (list (list byte)) :=
  let stream := hkdf_New shared salt info in
  let k1 := firstn aes_BlockSize stream in
  let stream' := skipn aes_BlockSize stream in
  let k2 := firstn aes_BlockSize stream' in
  if (length k1 =? aes_BlockSize)%nat
  then if (length k2 =? aes_BlockSize)%nat
       then ret [k1; k2]
       else panic
  else panic.

(** Indexing a slice of slices; out of range panics. *)
Definition index (keys : option (list (list byte))) (i : nat)
  : M (list byte) :=
  match keys with
  | None => panic
  | Some l => deref (nth_error l i)
  end.

(** A nil slice used as a []byte argument is the empty slice. *)
Definition slice (b : option (list byte)) : list byte :=
  match b with Some l => l | None => [] end.

(** [func (c *Conn) Negotiate(server bool) error] *)
Definition Negotiate (srv : bool) : M (option error) :=
  '(pub, priv, err) <- GenerateKey ;;
  match err with Some e => ret (Some e) | None =>
  modc (set_pubKey pub) ;;;
  modc (set_privKey priv) ;;;
  modc (set_server srv) ;;;
  err <- net_binary_Write (uint32 32) ;;
  match err with Some e => ret (Some e) | None =>
  pk <- deref pub ;;
  '(n, err) <- net_Write pk ;;
  match err with Some e => ret (Some e) | None =>
  if negb (n =? 32)%nat then ret (Some ErrShortWrite) else
  '(other, err) <- net_binary_Read 0 ;;
  match err with Some e => ret (Some e) | None =>
  modc (set_peerKey (Some (make 32))) ;;;
  '(d, err) <- net_Read 32 ;;
  modc (set_peerKey (Some (overwrite (make 32) d))) ;;;
  match err with Some e => ret (Some e) | None =>
  if negb (length d =? 32)%nat then ret (Some ErrShortBuffer) else
  sk <- deref priv ;;
  modc (set_shared (Some (curve25519_ScalarMult sk d))) ;;;
  r <- (if srv
   then
     '(other, err) <- net_binary_Read other ;;
     match err with Some e => ret (None, Some e) | None =>
     '(iv, err) <- net_ReadFull (Z.to_nat other) ;;
     match err with Some e => ret (None, Some e) | None =>
     if negb (Z.of_nat (length iv) =? int other)
     then ret (None, Some ErrShortBuffer)
     else ret (Some iv, None)
     end end
   else
     '(iv, err) <- rand_ReadFull aes_BlockSize ;;
     match err with Some e => ret (None, Some e) | None =>
     if negb (length iv =? aes_BlockSize)%nat
     then ret (None, Some ErrShortBuffer) else
     err <- net_binary_Write (uint32 (Z.of_nat (length iv))) ;;
     match err with Some e => ret (None, Some e) | None =>
     '(n, err) <- net_Write iv ;;
     match err with Some e => ret (None, Some e) | None =>
     if negb (n =? length iv)%nat
     then ret (None, Some ErrShortWrite)
     else ret (Some iv, None)
     end end end) ;;
  match r with
  | (_, Some e) => ret (Some e)
  | (None, None) => panic
  | (Some iv, None) =>
  e <- gete ;;
  modc (set_rekeyLeft (RekeyAfterBytes e)) ;;;
  modc (set_read (Some (mkHalf None []))) ;;;
  modc (set_write (Some (mkHalf None []))) ;;;
  newKeys <- makeKeys (curve25519_ScalarMult sk d) iv [] ;;
  c <- getc ;;
  (if server c
   then k1 <- index (Some newKeys) 1 ;; _ <- read_setup k1 iv ;;
        k0 <- index (Some newKeys) 0 ;; _ <- write_setup k0 iv ;; ret tt
   else k0 <- index (Some newKeys) 0 ;; _ <- read_setup k0 iv ;;
        k1 <- index (Some newKeys) 1 ;; _ <- write_setup k1 iv ;; ret tt) ;;;
  c <- getc ;;
  w <- deref (write c) ;;
  _ <- deref (aead w) ;;
  modc (set_headerBuf (make (4 + Overhead))) ;;;
  modc (set_rekeyAfter (now e + KeyValidityPeriod e)) ;;;
  ret None
  end end end end end end.

(** [func (c *Conn) AuthToken() []byte] *)
Definition AuthToken : M (list byte) :=
  c <- getc ;;
  key <- deref (shared c) ;;
  msg <- deref (pubKey c) ;;
  ret (hmac_sha256 key msg).

(** [func (c *Conn) PeerAuthToken() []byte] *)
Definition PeerAuthToken : M (list byte) :=
  c <- getc ;;
  key <- deref (shared c) ;;
  msg <- deref (peerKey c) ;;
  ret (hmac_sha256 key msg).

(** [func NewClient(u net.Conn)] and [func NewServer(u net.Conn)]: the
    value of the outcome is the error they return, its state holds the
    connection they return. *)
Definition NewClient (u : NetConn) (e : Env) : outcome (option error) :=
  let '(c, err) := NewConn u in
  match err with
  | Some e' => Normal (Some e') (mkState c e)
  | None => (Negotiate false ;;; ret None) (mkState c e)
  end.

Definition NewServer (u : NetConn) (e : Env) : outcome (option error) :=
  let '(c, err) := NewConn u in
  match err with
  | Some e' => Normal (Some e') (mkState c e)
  | None => (Negotiate true ;;; ret None) (mkState c e)
  end.

(** [func (c *Conn) sendBuffer(cmd uint32, buf *bytes.Buffer) error];
    [payload] is the content of [buf]. *)
Definition sendBuffer (cmd : Z) (payload : list byte) : M (option error) :=
  let headerInt := sendBuffer_headerInt cmd (length payload) in
  let header := PutUint32 headerInt in
  c <- getc ;;
  w <- deref (write c) ;;
  k <- deref (aead w) ;;
  let ct := Seal k (seq w) header in
  modc (set_writeBuf (overwrite (writeBuf c) ct)) ;;;
  write_incSeq ;;;
  '(n, err) <- net_Write ct ;;
  match err with Some e => ret (Some e) | None =>
  if negb (n =? length ct)%nat then ret (Some ErrShortWrite) else
  c <- getc ;;
  w <- deref (write c) ;;
  k <- deref (aead w) ;;
  let ct := Seal k (seq w) payload in
  write_incSeq ;;;
  '(n, err) <- net_Write ct ;;
  match err with Some e => ret (Some e) | None =>
  if negb (n =? length ct)%nat then ret (Some ErrShortWrite) else
  ret None
  end end.

(** [func (c *Conn) startRekey() error] *)
Definition startRekey : M (option error) :=
  e <- gete ;;
  modc (set_rekeyLeft (RekeyAfterBytes e)) ;;;
  modc (set_rekeyAfter (now e + KeyValidityPeriod e)) ;;;
  '(pub, priv, err) <- GenerateKey ;;
  match err with Some e => ret (Some e) | None =>
  modc (set_nextPubKey pub) ;;;
  modc (set_nextPrivKey priv) ;;;
  '(iv, err) <- rand_ReadFull aes_BlockSize ;;
  match err with Some e => ret (Some e) | None =>
  if negb (length iv =? aes_BlockSize)%nat then ret (Some ErrShortBuffer) else
  modc (set_nextIv (Some iv)) ;;;
  pk <- deref pub ;;
  sendBuffer pStartRekey (pk ++ iv)
  end end.

(** [func (c *Conn) sendClientRekey() error] *)
Definition sendClientRekey : M (option error) :=
  '(pub, priv, err) <- GenerateKey ;;
  match err with Some e => ret (Some e) | None =>
  modc (set_nextPubKey pub) ;;;
  modc (set_nextPrivKey priv) ;;;
  pk <- deref pub ;;
  err <- sendBuffer pClientKeyUpdate pk ;;
  match err with Some e => ret (Some e) | None =>
  c <- getc ;;
  sk <- deref (nextPrivKey c) ;;
  peer <- deref (nextPeerKey c) ;;
  modc (set_nextShared (Some (curve25519_ScalarMult sk peer))) ;;;
  keys <- makeKeys (curve25519_ScalarMult sk peer) (slice (nextIv c)) [] ;;
  modc (set_nextKeys (Some keys)) ;;;
  k1 <- index (Some keys) 1 ;;
  _ <- write_setup k1 (slice (nextIv c)) ;;
  ret None
  end end.

(** The commit shared by sendServerRekeyed and readClientRekeyFinal: the
    source clears nextPeerKey twice and leaves nextPubKey. *)
Definition commitNext : M unit :=
  c <- getc ;;
  modc (set_shared (nextShared c)) ;;;
  modc (set_privKey (nextPrivKey c)) ;;;
  modc (set_peerKey (nextPeerKey c)) ;;;
  modc (set_pubKey (nextPubKey c)) ;;;
  modc (set_nextShared None) ;;;
  modc (set_nextPrivKey None) ;;;
  modc (set_nextPeerKey None) ;;;
  modc (set_nextPeerKey None) ;;;
  modc (set_nextIv None) ;;;
  modc (set_nextKeys None).

(** [func (c *Conn) sendServerRekeyed() error] *)
Definition sendServerRekeyed : M (option error) :=
  err <- sendBuffer pFinalizeRekey [] ;;
  match err with Some e => ret (Some e) | None =>
  c <- getc ;;
  k0 <- index (nextKeys c) 0 ;;
  _ <- write_setup k0 (slice (nextIv c)) ;;
  commitNext ;;;
  ret None
  end.

(** [func (c *Conn) readAndCheck(cnt uint32) ([]byte, error)]; a nil
    slice result is the empty list. *)
Definition readAndCheck (cnt : Z) : M (list byte * option error) :=
  c <- getc ;;
  r <- deref (read c) ;;
  k <- deref (aead r) ;;
  let wireCnt := int (int cnt + Z.of_nat Overhead) in
  if wireCnt <? 0 then panic else
  '(buf, err) <- net_ReadFull (Z.to_nat wireCnt) ;;
  match err with Some e => ret ([], Some e) | None =>
  if negb (Z.of_nat (length buf) =? wireCnt)
  then ret ([], Some ErrShortBuffer) else
  c <- getc ;;
  r <- deref (read c) ;;
  let res := Open k (seq r) buf in
  read_incSeq ;;;
  match res with
  | Some pt => ret (pt, None)
  | None => ret ([], Some ErrOpen)
  end
  end.

(** [func (c *Conn) readRekey(cnt uint32) error] *)
Definition readRekey (cnt : Z) : M (option error) :=
  '(buf, err) <- readAndCheck cnt ;;
  match err with Some e => ret (Some e) | None =>
  if negb (length buf =? cKeySize + aes_BlockSize)%nat
  then ret (Some ErrBadRekey) else
  modc (set_nextPeerKey (Some (firstn cKeySize buf))) ;;;
  modc (set_nextIv (Some (skipn cKeySize buf))) ;;;
  sendClientRekey
  end.

(** [func (c *Conn) readServerRekeyed(cnt uint32) error] *)
Definition readServerRekeyed (cnt : Z) : M (option error) :=
  '(buf, err) <- readAndCheck cnt ;;
  match err with Some e => ret (Some e) | None =>
  if negb (length buf =? cKeySize)%nat then ret (Some ErrBadRekey) else
  modc (set_nextPeerKey (Some (firstn cKeySize buf))) ;;;
  c <- getc ;;
  sk <- deref (nextPrivKey c) ;;
  let sh := curve25519_ScalarMult sk (firstn cKeySize buf) in
  modc (set_nextShared (Some sh)) ;;;
  keys <- makeKeys sh (slice (nextIv c)) [] ;;
  modc (set_nextKeys (Some keys)) ;;;
  k1 <- index (Some keys) 1 ;;
  _ <- read_setup k1 (slice (nextIv c)) ;;
  sendServerRekeyed
  end.

(** [func (c *Conn) readClientRekeyFinal(size uint32) error] *)
Definition readClientRekeyFinal (size : Z) : M (option error) :=
  '(buf, err) <- readAndCheck size ;;
  match err with Some e => ret (Some e) | None =>
  if negb (length buf =? 0)%nat then ret (Some ErrBadRekey) else
  c <- getc ;;
  k0 <- index (nextKeys c) 0 ;;
  _ <- read_setup k0 (slice (nextIv c)) ;;
  commitNext ;;;
  ret None
  end.

(** The loop [for len(buf) > 0] of Write; [fuel] bounds its iterations. *)
Fixpoint Write_loop (fuel : nat) (total : nat) (buf : list byte)
  : M (nat * option error) :=
  match buf with
  | [] => ret (total, None)
  | _ :: _ =>
    match fuel with
    | O => fun _ => OutOfFuel
    | S fuel' =>
      c <- getc ;;
      let '(chunk, rest) :=
        if (length buf <=? length (writeBuf c))%nat
        then (buf, [])
        else (firstn (length (writeBuf c)) buf,
              skipn (length (writeBuf c)) buf) in
      let headerInt := Write_headerInt (length chunk) in
      let header := PutUint32 headerInt in
      w <- deref (write c) ;;
      k <- deref (aead w) ;;
      let ct := Seal k (seq w) header in
      modc (set_writeBuf (overwrite (writeBuf c) ct)) ;;;
      write_incSeq ;;;
      '(n, err) <- net_Write ct ;;
      match err with Some e => ret (O, Some e) | None =>
      if negb (n =? length ct)%nat then ret (O, Some ErrShortWrite) else
      c <- getc ;;
      w <- deref (write c) ;;
      k <- deref (aead w) ;;
      let ct := Seal k (seq w) chunk in
      modc (set_writeBuf (overwrite (writeBuf c) ct)) ;;;
      write_incSeq ;;;
      '(n, err) <- net_Write ct ;;
      match err with Some e => ret (O, Some e) | None =>
      if negb (n =? length ct)%nat then ret (O, Some ErrShortWrite) else
      Write_loop fuel' total rest
      end end
    end
  end.

(** [func (c *Conn) Write(buf []byte) (int, error)] *)
Definition Write (fuel : nat) (buf : list byte) : M (nat * option error) :=
  c <- getc ;;
  e <- gete ;;
  err <- (if server c && match nextPeerKey c with None => true | _ => false end
          then if (rekeyLeft c <=? 0) || (rekeyAfter c <? now e)
               then startRekey
               else modc (set_rekeyLeft
                            (int (rekeyLeft c - Z.of_nat (length buf)))) ;;;
                    ret None
          else ret None) ;;
  match err with Some e' => ret (O, Some e') | None =>
  Write_loop fuel (length buf) buf
  end.

(** The part of Read from the label [retry] on; [fuel] bounds the number
    of times the label is reached. The result is the slice [buf[:n]] that
    was filled, and the error. *)
Fixpoint Read_retry (fuel : nat) (len_buf : nat)
  : M (list byte * option error) :=
  match fuel with
  | O => fun _ => OutOfFuel
  | S fuel' =>
    c <- getc ;;
    '(d, err) <- net_ReadFull (length (headerBuf c)) ;;
    modc (set_headerBuf (overwrite (headerBuf c) d)) ;;;
    match err with Some e => ret ([], Some e) | None =>
    if negb (length d =? length (headerBuf c))%nat
    then ret ([], Some ErrShortBuffer) else
    c <- getc ;;
    r <- deref (read c) ;;
    k <- deref (aead r) ;;
    match Open k (seq r) (headerBuf c) with
    | None => ret ([], Some (ErrBadHeader ErrOpen))
    | Some header =>
      modc (set_headerBuf (overwrite (headerBuf c) header)) ;;;
      read_incSeq ;;;
      cnt <- deref (Uint32 header) ;;
      let cmd := header_cmd cnt in
      let cnt := header_cnt cnt in
      if cmd =? pData then
        c <- getc ;;
        w <- deref (write c) ;;
        _ <- deref (aead w) ;;
        let wireCnt := uint32 (cnt + uint32 (Z.of_nat Overhead)) in
        let '(got, _, u) := io_CopyN (netConn c) (Z.to_nat wireCnt) in
        modc (set_netConn u) ;;;
        modc (set_readBuf (readBuf c ++ got)) ;;;
        c <- getc ;;
        r <- deref (read c) ;;
        k <- deref (aead r) ;;
        match Open k (seq r) (readBuf c) with
        | None => ret ([], Some ErrOpen)
        | Some pt =>
          read_incSeq ;;;
          b <- deref (Buffer_Truncate (overwrite (readBuf c) pt) (length pt)) ;;
          let toExtract :=
            if Z.of_nat len_buf <? int cnt then len_buf
            else Z.to_nat (int cnt) in
          let '(out, err, b') := Buffer_Read b toExtract in
          modc (set_readBuf b') ;;;
          match err with
          | Some e => ret ([], Some e)
          | None => ret (out, None)
          end
        end
      else if cmd =? pStartRekey then
        err <- readRekey cnt ;;
        match err with
        | Some e => ret ([], Some e)
        | None => Read_retry fuel' len_buf
        end
      else if cmd =? pClientKeyUpdate then
        err <- readServerRekeyed cnt ;;
        match err with
        | Some e => ret ([], Some e)
        | None => Read_retry fuel' len_buf
        end
      else if cmd =? pFinalizeRekey then
        err <- readClientRekeyFinal cnt ;;
        match err with
        | Some e => ret ([], Some e)
        | None => Read_retry fuel' len_buf
        end
      else ret ([], Some ErrProtocolError)
    end
    end
  end.

(** [func (c *Conn) Read(buf []byte) (int, error)] with [len(buf) =
    len_buf] *)
Definition Read (fuel : nat) (len_buf : nat) : M (list byte * option error) :=
  c <- getc ;;
  let '(d, err, b) := Buffer_Read (readBuf c) len_buf in
  modc (set_readBuf b) ;;;
  if (0 <? length d)%nat then ret (d, err) else
  Read_retry fuel len_buf.

End Seconn.

(** ** Messages: a length prefix over the encrypted stream *)

Section Messages.

Context {crypto : Crypto}.

(** The loop of [io.ReadAtLeast(c, buf, min)] on a connection, with
    [len(buf) = len_buf]: Read is called on the rest of the buffer until
    [min] bytes came or Read failed; a failure that comes with enough bytes
    is dropped, and an EOF after some bytes becomes [ErrUnexpectedEOF].
    [acc] is the part of the buffer that is filled, [fuel] bounds the number
    of calls and [rfuel] is the fuel of each Read. *)
Fixpoint ReadAtLeast_loop (fuel rfuel : nat) (len_buf min : nat)
  (acc : list byte) : M (list byte * option error) :=
  if (min <=? length acc)%nat then ret (acc, None) else
  match fuel with
  | O => fun _ => OutOfFuel
  | S fuel' =>
      '(d, err) <- Read rfuel (len_buf - length acc) ;;
      match err with
      | None => ReadAtLeast_loop fuel' rfuel len_buf min (acc ++ d)
      | Some e =>
          if (min <=? length (acc ++ d))%nat then ret (acc ++ d, None)
          else ret (acc ++ d,
                    Some match e, acc ++ d with
                         | EOF, _ :: _ => ErrUnexpectedEOF
                         | _, _ => e
                         end)
      end
  end.

(** [io.ReadFull(c, buf)] with [len(buf) = n] *)
Definition Conn_ReadFull (fuel rfuel : nat) (n : nat)
  : M (list byte * option error) :=
  ReadAtLeast_loop fuel rfuel n n [].

(** [func (c *Conn) GetMessage() ([]byte, error)]: binary.Read of the
    length is io.ReadFull of four bytes; a nil result is the empty list. *)
Definition GetMessage (fuel rfuel : nat) : M (list byte * option error) :=
  '(bs, err) <- Conn_ReadFull fuel rfuel 4 ;;
  match err with Some e => ret ([], Some e) | None =>
  let l := match Uint32 bs with Some w => w | None => 0 end in
  '(buf, err) <- Conn_ReadFull fuel rfuel (Z.to_nat l) ;;
  match err with Some e => ret ([], Some e) | None =>
  if negb (length buf =? Z.to_nat l)%nat then ret ([], Some ErrShortBuffer)
  else ret (buf, None)
  end end.

(** [func (c *Conn) SendMessage(msg []byte) error]: binary.Write of the
    length is one Write of four bytes whose count is dropped. *)
Definition SendMessage (fuel : nat) (msg : list byte) : M (option error) :=
  '(_, err) <- Write fuel (PutUint32 (uint32 (Z.of_nat (length msg)))) ;;
  match err with Some e => ret (Some e) | None =>
  '(n, err) <- Write fuel msg ;;
  match err with Some e => ret (Some e) | None =>
  if negb (n =? length msg)%nat then ret (Some ErrShortWrite) else ret None
  end end.

End Messages.

(** ** A small implementation of the primitives

    It is not secure; it is a model of the interface on which the package
    can be run: a keyed additive mask with a 16-byte checksum tag, a
    Diffie-Hellman style exchange in a commutative group of byte vectors, and
    digest-based key derivation and MAC. *)

Module Toy.

Definition digest (l : list byte) : Z :=
  fold_left (fun acc b => (acc * 31 + Z_of_byte b + 1) mod 2 ^ 32) l 7.

Definition mask (k n : list byte) : Z := digest (k ++ n) mod 256.

Definition tag (k n pt : list byte) : list byte :=
  let d := digest (k ++ n ++ pt) in
  PutUint32 d ++ PutUint32 (d + 1) ++ PutUint32 (d + 2) ++ PutUint32 (d + 3).

Definition seal (k n pt : list byte) : list byte :=
  map (fun b => byte_of_Z (Z_of_byte b + mask k n)) pt ++ tag k n pt.

Fixpoint bytes_eqb (a b : list byte) : bool :=
  match a, b with
  | [], [] => true
  | x :: a', y :: b' => Byte.eqb x y && bytes_eqb a' b'
  | _, _ => false
  end.

Definition open (k n ct : list byte) : option (list byte) :=
  if (length ct <? 16)%nat then None else
  let body := firstn (length ct - 16) ct in
  let tg := skipn (length ct - 16) ct in
  let pt := map (fun b => byte_of_Z (Z_of_byte b - mask k n)) body in
  if bytes_eqb tg (tag k n pt) then Some pt else None.

Definition base (a : list byte) : list byte :=
  map (fun b => byte_of_Z (3 * Z_of_byte b)) a.

Definition mult (a p : list byte) : list byte :=
  map (fun xy => byte_of_Z (3 * Z_of_byte (fst xy) + Z_of_byte (snd xy)))
      (combine a p).

Definition hkdf (secret salt info : list byte) : list byte :=
  map (fun i => byte_of_Z (digest (secret ++ salt ++ info) + Z.of_nat i))
      (List.seq 0 64).

Definition hmac (key msg : list byte) : list byte :=
  map (fun i => byte_of_Z (digest (key ++ x00 :: msg) + 7 * Z.of_nat i))
      (List.seq 0 32).

Definition crypto : Crypto :=
  {| NonceSize := 12; Overhead := 16;
     Seal := seal; Open := open;
     ScalarBaseMult := base; ScalarMult := mult;
     hkdf_New := hkdf; hmac_sha256 := hmac |}.

(** A carrier that accepts every write and will hand over [segs]. *)
Definition pipe (segs : list (list byte)) : NetConn :=
  mkNetConn segs EOF [] None None.

(** An environment with the default tunables and [n] bytes of entropy
    counting up from [start]. *)
Definition world (start : Z) (n : nat) : Env :=
  mkEnv 128 (100 * 1024 * 1024) (3600 * 1000000000)
        (map (fun i => byte_of_Z (start + Z.of_nat i)) (List.seq 0 n)) 0.

End Toy.


(** The reader of the round-trip property: it calls Read until [need]
    bytes are accumulated, each time with a buffer whose length [sz] gives
    from the number of bytes it already holds. [fuel] bounds the number of
    calls and [rfuel] is the fuel of each Read. *)
Fixpoint readUntil {crypto : Crypto} (fuel rfuel : nat) (sz : nat -> nat)
  (need : nat) (acc : list byte) : M (list byte * option error) :=
  if (need <=? length acc)%nat then ret (acc, None) else
  match fuel with
  | O => fun _ => OutOfFuel
  | S fuel' =>
      '(d, err) <- Read rfuel (sz (length acc)) ;;
      match err with
      | Some e => ret (acc ++ d, Some e)
      | None => readUntil fuel' rfuel sz need (acc ++ d)
      end
  end.

(** The value of a nonce read as a little-endian integer. *)
Fixpoint le_value (s : list byte) : Z :=
  match s with
  | [] => 0
  | b :: rest => Z_of_byte b + 256 * le_value rest
  end.

(** ** Properties of the primitives that the proofs rely on *)

(** Opening what was sealed under the same key and nonce gives the
    plaintext back, and sealing adds [Overhead] bytes. *)
Class AEADLaws (crypto : Crypto) : Prop := {
  Open_Seal : forall k n pt, Open k n (Seal k n pt) = Some pt;
  Seal_length : forall k n pt,
      length (Seal k n pt) = (length pt + Overhead)%nat;
  Overhead_bound : Z.of_nat Overhead < 2 ^ 24
}.

(** Both sides of a Diffie-Hellman exchange compute the same secret. *)
Class DHLaws (crypto : Crypto) : Prop := {
  ScalarMult_comm : forall a b,
      length a = 32%nat -> length b = 32%nat ->
      curve25519_ScalarMult a (curve25519_ScalarBaseMult b)
      = curve25519_ScalarMult b (curve25519_ScalarBaseMult a)
}.

(** The HKDF stream holds at least the two keys. *)
Class KDFLaws (crypto : Crypto) : Prop := {
  hkdf_New_length : forall secret salt info,
      (32 <= length (hkdf_New secret salt info))%nat
}.

(** * Bytes and words *)

Lemma Z_of_byte_range (b : byte) : 0 <= Z_of_byte b < 256.
Proof.
  unfold Z_of_byte. pose proof (Byte.to_N_bounded b). lia.
Qed.

Lemma byte_of_Z_of_byte (b : byte) : byte_of_Z (Z_of_byte b) = b.
Proof.
  unfold byte_of_Z. pose proof (Z_of_byte_range b) as R.
  rewrite Z.mod_small by exact R.
  unfold Z_of_byte. rewrite N2Z.id, Byte.of_to_N. reflexivity.
Qed.

Lemma Z_of_byte_of_Z (z : Z) : Z_of_byte (byte_of_Z z) = z mod 256.
Proof.
  unfold byte_of_Z.
  pose proof (Z.mod_pos_bound z 256 ltac:(lia)) as R.
  destruct (Byte.of_N (Z.to_N (z mod 256))) as [b|] eqn:E.
  - apply Byte.to_of_N in E. unfold Z_of_byte. rewrite E. lia.
  - apply Byte.of_N_None_iff in E. lia.
Qed.

Lemma Z_of_byte_inj (a b : byte) : Z_of_byte a = Z_of_byte b -> a = b.
Proof.
  intro E. rewrite <- (byte_of_Z_of_byte a), <- (byte_of_Z_of_byte b), E.
  reflexivity.
Qed.

Lemma testbit_mod256 (z : Z) (i : Z) :
  0 <= i -> Z.testbit (z mod 256) i = (i <? 8) && Z.testbit z i.
Proof.
  intro Hi. change 256 with (2 ^ 8).
  rewrite Z.testbit_mod_pow2 by lia. reflexivity.
Qed.

Lemma testbit_uint32 (z : Z) (i : Z) :
  0 <= i -> Z.testbit (uint32 z) i = (i <? 32) && Z.testbit z i.
Proof.
  intro Hi. unfold uint32. rewrite Z.testbit_mod_pow2 by lia. reflexivity.
Qed.

Lemma testbit_above (z : Z) (n i : Z) :
  0 <= z < 2 ^ n -> 0 <= n <= i -> Z.testbit z i = false.
Proof.
  intros Hz Hi.
  rewrite <- (Z.mod_small z (2 ^ n)) by exact Hz.
  apply Z.mod_pow2_bits_high. lia.
Qed.

Lemma testbit_byte_at (v k i : Z) :
  0 <= k -> 0 <= i ->
  Z.testbit (Z.shiftl (Z.shiftr v k mod 256) k) i
  = (k <=? i) && (i <? k + 8) && Z.testbit v i.
Proof.
  intros Hk Hi. destruct (Z.leb_spec k i).
  - rewrite Z.shiftl_spec, testbit_mod256, Z.shiftr_spec by lia.
    replace (i - k + k) with i by lia.
    replace (i - k <? 8) with (i <? k + 8); [reflexivity|].
    destruct (Z.ltb_spec i (k + 8)), (Z.ltb_spec (i - k) 8); auto; lia.
  - rewrite Z.shiftl_spec_low by lia. reflexivity.
Qed.

Lemma Uint32_PutUint32 (v : Z) :
  0 <= v < 2 ^ 32 -> Uint32 (PutUint32 v) = Some v.
Proof.
  intro Hv. unfold PutUint32, Uint32. rewrite !Z_of_byte_of_Z. f_equal.
  apply Z.bits_inj'. intros i Hi.
  rewrite !Z.lor_spec, !testbit_byte_at, testbit_mod256 by lia.
  destruct (Z.ltb_spec i 32) as [H32|H32].
  - destruct (Z.ltb_spec i 8), (Z.leb_spec 8 i), (Z.ltb_spec i (8 + 8)),
      (Z.leb_spec 16 i), (Z.ltb_spec i (16 + 8)), (Z.leb_spec 24 i),
      (Z.ltb_spec i (24 + 8)); try lia; simpl;
      rewrite ?orb_false_r; reflexivity.
  - rewrite (testbit_above v 32 i) by lia.
    rewrite !andb_false_r. reflexivity.
Qed.

Lemma length_PutUint32 (v : Z) : length (PutUint32 v) = 4%nat.
Proof. reflexivity. Qed.

(** The header word of a command below 256 and a length below 2^24 is
    the sum of the command and the length shifted by one byte. *)
Lemma sendBuffer_headerInt_sum (cmd : Z) (n : nat) :
  0 <= cmd < 256 -> Z.of_nat n < 2 ^ 24 ->
  sendBuffer_headerInt cmd n = cmd + 256 * Z.of_nat n.
Proof.
  intros Hc Hn. unfold sendBuffer_headerInt, uint32.
  rewrite Z.shiftl_mul_pow2 by lia.
  rewrite Z.mod_small by lia.
  rewrite <- Z.lxor_lor, <- Z.add_nocarry_lxor; try lia.
  all: apply Z.bits_inj'; intros i Hi;
    rewrite Z.land_spec, Z.bits_0;
    destruct (Z.ltb_spec i 8);
    [ replace (Z.of_nat n * 2 ^ 8) with (Z.shiftl (Z.of_nat n) 8)
        by (rewrite Z.shiftl_mul_pow2; lia);
      rewrite Z.shiftl_spec, (Z.testbit_neg_r _ (i - 8)) by lia;
      apply andb_false_r
    | rewrite (testbit_above cmd 8 i) by lia; reflexivity ].
Qed.

Lemma Write_headerInt_sum (n : nat) :
  Z.of_nat n < 2 ^ 24 -> Write_headerInt n = 256 * Z.of_nat n.
Proof.
  intro Hn. unfold Write_headerInt, uint32.
  rewrite (Z.mod_small (Z.of_nat n)) by lia.
  rewrite Z.shiftl_mul_pow2 by lia. rewrite Z.mod_small by lia. lia.
Qed.

Lemma header_cmd_sum (cmd n : Z) :
  0 <= cmd < 256 -> header_cmd (cmd + 256 * n) = cmd.
Proof.
  intro Hc. unfold header_cmd. change 255 with (Z.ones 8).
  rewrite Z.land_ones by lia. change (2 ^ 8) with 256.
  rewrite (Z.mul_comm 256 n), Z.mod_add by lia.
  apply Z.mod_small. exact Hc.
Qed.

Lemma header_cnt_sum (cmd n : Z) :
  0 <= cmd < 256 -> header_cnt (cmd + 256 * n) = n.
Proof.
  intro Hc. unfold header_cnt. rewrite Z.shiftr_div_pow2 by lia.
  change (2 ^ 8) with 256.
  rewrite (Z.mul_comm 256 n), Z.div_add by lia.
  rewrite Z.div_small by exact Hc. lia.
Qed.

(** C6. The four header bytes that the write paths emit (sendBuffer for
    any command below 256, hence the four commands, and Write for a DATA
    chunk) decode through Uint32 to a word whose low byte is the command
    and whose upper 24 bits are the payload length, for every payload
    length below 2^24. *)
Theorem header_roundtrip (cmd : Z) (n : nat) :
  0 <= cmd < 256 -> Z.of_nat n < 2 ^ 24 ->
  (exists h, Uint32 (PutUint32 (sendBuffer_headerInt cmd n)) = Some h /\
             header_cmd h = cmd /\ header_cnt h = Z.of_nat n) /\
  (exists h, Uint32 (PutUint32 (Write_headerInt n)) = Some h /\
             header_cmd h = pData /\ header_cnt h = Z.of_nat n).
Proof.
  intros Hc Hn. split.
  - exists (sendBuffer_headerInt cmd n).
    rewrite sendBuffer_headerInt_sum by assumption.
    rewrite Uint32_PutUint32 by lia.
    rewrite header_cmd_sum, header_cnt_sum by assumption. auto.
  - exists (Write_headerInt n).
    rewrite Write_headerInt_sum by assumption.
    rewrite Uint32_PutUint32 by lia.
    change (256 * Z.of_nat n) with (0 + 256 * Z.of_nat n).
    rewrite header_cmd_sum, header_cnt_sum by lia. auto.
Qed.

Lemma header_roundtrip_witness :
  (exists h, Uint32 (PutUint32 (sendBuffer_headerInt pStartRekey 48)) = Some h /\
             header_cmd h = pStartRekey /\ header_cnt h = 48) /\
  (exists h, Uint32 (PutUint32 (Write_headerInt 48)) = Some h /\
             header_cmd h = pData /\ header_cnt h = 48).
Proof.
  apply (header_roundtrip pStartRekey 48);
    [ unfold pStartRekey; lia | simpl; lia ].
Defined.

(** * The nonce counter *)

Lemma le_value_range (s : list byte) :
  0 <= le_value s < 2 ^ (8 * Z.of_nat (length s)).
Proof.
  induction s as [|b s IH].
  - simpl. lia.
  - cbn [le_value length]. pose proof (Z_of_byte_range b) as Hb.
    replace (8 * Z.of_nat (S (length s))) with (8 + 8 * Z.of_nat (length s))
      by lia.
    rewrite Z.pow_add_r by lia. change (2 ^ 8) with 256. lia.
Qed.

Lemma incSeq_length (s : list byte) : length (incSeq s) = length s.
Proof.
  induction s as [|b s IH]; [reflexivity|].
  cbn [incSeq]. destruct (Z_of_byte b <? 255); cbn [length]; congruence.
Qed.

(** C7. For every nonce, incSeq yields the successor of the nonce read as
    a little-endian integer, modulo 2^(8 * length): byte 0 is incremented,
    and a byte that was 255 becomes 0 and the increment moves on to the next
    byte. The length does not change. *)
Theorem incSeq_successor (s : list byte) :
  le_value (incSeq s) = (le_value s + 1) mod 2 ^ (8 * Z.of_nat (length s))
  /\ length (incSeq s) = length s.
Proof.
  split; [|apply incSeq_length].
  induction s as [|b s IH].
  - reflexivity.
  - cbn [incSeq le_value length].
    pose proof (Z_of_byte_range b) as Hb.
    pose proof (le_value_range s) as Hs.
    replace (8 * Z.of_nat (S (length s))) with (8 + 8 * Z.of_nat (length s))
      by lia.
    rewrite Z.pow_add_r by lia. change (2 ^ 8) with 256.
    set (m := 2 ^ (8 * Z.of_nat (length s))) in *.
    destruct (Z.ltb_spec (Z_of_byte b) 255) as [Hlt|Hge].
    + cbn [le_value]. rewrite Z_of_byte_of_Z.
      rewrite (Z.mod_small (Z_of_byte b + 1)) by lia.
      rewrite Z.mod_small by nia. lia.
    + cbn [le_value]. rewrite Z_of_byte_of_Z, IH.
      replace (Z_of_byte b) with 255 by lia.
      change ((255 + 1) mod 256) with 0.
      replace (255 + 256 * le_value s + 1) with (256 * (le_value s + 1))
        by lia.
      rewrite Z.mul_mod_distr_l by lia. lia.
Qed.

(** The first byte is always incremented, and the rest is touched only on
    a carry. *)
Lemma incSeq_cons (b : byte) (s : list byte) :
  incSeq (b :: s) =
  byte_of_Z (Z_of_byte b + 1) ::
    (if Z_of_byte b =? 255 then incSeq s else s).
Proof.
  cbn [incSeq]. pose proof (Z_of_byte_range b).
  destruct (Z.ltb_spec (Z_of_byte b) 255), (Z.eqb_spec (Z_of_byte b) 255);
    try lia; reflexivity.
Qed.

(** * The scripted carrier *)

Lemma app_eq_prefix {A : Type} (x y a b : list A) :
  x ++ y = a ++ b -> (length a <= length x)%nat ->
  a = firstn (length a) x /\ b = skipn (length a) x ++ y.
Proof.
  revert a. induction x as [|h x IH]; intros a E L.
  - destruct a; [|simpl in L; lia]. simpl in *. auto.
  - destruct a as [|h' a].
    + simpl in *. auto.
    + simpl in E, L. injection E as -> E.
      destruct (IH a E ltac:(lia)) as [Ha Hb].
      simpl. split; [f_equal; exact Ha | exact Hb].
Qed.

Lemma app_eq_longer {A : Type} (x y a b : list A) :
  x ++ y = a ++ b -> (length x <= length a)%nat ->
  a = x ++ skipn (length x) a /\ y = skipn (length x) a ++ b.
Proof.
  intros E L. symmetry in E.
  destruct (app_eq_prefix _ _ _ _ E L) as [Hx Hy].
  split; [|exact Hy].
  rewrite Hx at 1. symmetry. apply firstn_skipn.
Qed.

Lemma concat_rest_segs n seg rest :
  concat (rest_segs n seg rest) = skipn n seg ++ concat rest.
Proof.
  unfold rest_segs. destruct (skipn n seg); reflexivity.
Qed.

(** Whatever the segmentation, a read loop for [n] bytes returns the
    first [n] bytes of the stream when the stream holds them. *)
Lemma readLoop_exact (segs : list (list byte)) (fin : error) :
  forall (n : nat) (a b : list byte),
    concat segs = a ++ b -> length a = n ->
    exists segs', readLoop segs fin n = (a, None, segs') /\
                  concat segs' = b.
Proof.
  induction segs as [|seg rest IH]; intros n a b E L.
  - simpl in E. destruct a; [|discriminate]. subst n.
    exists []. simpl. auto using eq_sym.
  - destruct n as [|n'].
    + destruct a; [|discriminate]. exists (seg :: rest). simpl. auto.
    + cbn [readLoop]. simpl in E.
      destruct (Nat.leb_spec (S n') (length seg)) as [Hle|Hgt].
      * destruct (app_eq_prefix _ _ _ _ E ltac:(lia)) as [Ha Hb].
        rewrite L in Ha, Hb.
        exists (rest_segs (S n') seg rest). split.
        -- rewrite <- Ha. reflexivity.
        -- rewrite concat_rest_segs. auto.
      * destruct (app_eq_longer _ _ _ _ E ltac:(lia)) as [Ha Hb].
        destruct (IH (S n' - length seg)%nat (skipn (length seg) a) b Hb)
          as [segs' [R C]].
        { rewrite length_skipn. lia. }
        rewrite R. exists segs'. split; [|exact C].
        rewrite <- Ha. reflexivity.
Qed.

Lemma io_ReadFull_exact (u : NetConn) (n : nat) (a b : list byte) :
  concat (rx u) = a ++ b -> length a = n ->
  exists segs', io_ReadFull u n
                = (a, None, mkNetConn segs' (rx_end u) (tx u) (tx_room u)
                                      (tx_fail u))
                /\ concat segs' = b.
Proof.
  intros E L. destruct (readLoop_exact (rx u) (rx_end u) n a b E L) as [segs' [R C]].
  exists segs'. unfold io_ReadFull. rewrite R. auto.
Qed.

Lemma io_CopyN_exact (u : NetConn) (n : nat) (a b : list byte) :
  concat (rx u) = a ++ b -> length a = n ->
  exists segs' e, io_CopyN u n
                = (a, e, mkNetConn segs' (rx_end u) (tx u) (tx_room u)
                                   (tx_fail u))
                /\ concat segs' = b.
Proof.
  intros E L. destruct (readLoop_exact (rx u) (rx_end u) n a b E L) as [segs' [R C]].
  exists segs', None. unfold io_CopyN. rewrite R. auto.
Qed.

(** A write that reports no error and the full count appended all its
    bytes and changed nothing else that a reader sees. *)
Lemma conn_Write_full (u u' : NetConn) (p : list byte) (n : nat) :
  conn_Write u p = (n, None, u') -> n = length p ->
  tx u' = tx u ++ p /\ rx u' = rx u /\ rx_end u' = rx_end u.
Proof.
  unfold conn_Write. intros E L.
  destruct (tx_room u) as [room|].
  - destruct (Nat.leb_spec (length p) room).
    + injection E as _ <-. simpl. auto.
    + injection E as En _ _. lia.
  - injection E as _ <-. simpl. auto.
Qed.

(** A carrier without a limit accepts every write. *)
Lemma conn_Write_open (u : NetConn) (p : list byte) :
  tx_room u = None ->
  conn_Write u p
  = (length p, None, mkNetConn (rx u) (rx_end u) (tx u ++ p) None (tx_fail u)).
Proof.
  unfold conn_Write. intros ->. reflexivity.
Qed.

(** * The constructors *)

Section Constructors.

Context {crypto : Crypto}.

(** C10. Whatever the carrier and the environment, when the handshake
    that NewClient (resp. NewServer) runs returns an error, the constructor
    still returns a nil error, together with the connection in the state in
    which the failed handshake left it. *)
Theorem constructors_discard_error
  (srv : bool) (u : NetConn) (e : Env) (err : error) (s : State) :
  Negotiate srv (mkState (fst (NewConn u)) e) = Normal (Some err) s ->
  (if srv then NewServer u e else NewClient u e) = Normal None s.
Proof.
  intro H. destruct srv; unfold NewServer, NewClient, NewConn, bind in *;
    simpl in *; rewrite H; reflexivity.
Qed.

(** The same holds when the handshake succeeds: the result of Negotiate
    never reaches the caller. *)
Lemma constructors_return_nil
  (srv : bool) (u : NetConn) (e : Env) (r : option error) (s : State) :
  Negotiate srv (mkState (fst (NewConn u)) e) = Normal r s ->
  (if srv then NewServer u e else NewClient u e) = Normal None s.
Proof.
  intro H. destruct srv; unfold NewServer, NewClient, NewConn, bind in *;
    simpl in *; rewrite H; reflexivity.
Qed.

End Constructors.

(** A client whose peer never answers: the handshake fails with EOF and
    NewClient reports success. *)
Lemma constructors_discard_error_witness :
  exists s : State,
    Negotiate (crypto := Toy.crypto) false
              (mkState (fst (NewConn (Toy.pipe []))) (Toy.world 1 64))
    = Normal (Some EOF) s /\
    NewClient (crypto := Toy.crypto) (Toy.pipe []) (Toy.world 1 64)
    = Normal None s /\
    peerKey (conn s) = None /\ shared (conn s) = None /\
    read (conn s) = None.
Proof.
  eexists. split; [vm_compute; reflexivity|]. split.
  - apply (constructors_discard_error (crypto := Toy.crypto) false
             (Toy.pipe []) (Toy.world 1 64) EOF).
    vm_compute. reflexivity.
  - vm_compute. repeat split.
Defined.

(** Other ways the handshake fails behind a nil error: a carrier that
    breaks on the first write, one that silently takes only part of the
    public key, and a random source without enough bytes. *)
Example NewServer_on_broken_carrier :
  exists s,
    NewServer (crypto := Toy.crypto)
              (mkNetConn [] EOF [] (Some 2%nat) (Some (ErrNet 5)))
              (Toy.world 1 64) = Normal None s /\
    Negotiate (crypto := Toy.crypto) true
              (mkState (fst (NewConn (mkNetConn [] EOF [] (Some 2%nat)
                                                (Some (ErrNet 5)))))
                       (Toy.world 1 64)) = Normal (Some (ErrNet 5)) s.
Proof. eexists. split; vm_compute; reflexivity. Qed.

Example NewClient_on_short_write :
  exists s,
    NewClient (crypto := Toy.crypto)
              (mkNetConn [] EOF [] (Some 20%nat) None)
              (Toy.world 1 64) = Normal None s /\
    Negotiate (crypto := Toy.crypto) false
              (mkState (fst (NewConn (mkNetConn [] EOF [] (Some 20%nat) None)))
                       (Toy.world 1 64)) = Normal (Some ErrShortWrite) s.
Proof. eexists. split; vm_compute; reflexivity. Qed.

Example NewClient_without_entropy :
  exists s,
    NewClient (crypto := Toy.crypto) (Toy.pipe []) (Toy.world 1 8)
    = Normal None s /\
    Negotiate (crypto := Toy.crypto) false
              (mkState (fst (NewConn (Toy.pipe []))) (Toy.world 1 8))
    = Normal (Some ErrUnexpectedEOF) s /\
    pubKey (conn s) = None.
Proof. eexists. split; [|split]; vm_compute; reflexivity. Qed.

Lemma readLoop_cons seg rest fin n :
  readLoop (seg :: rest) fin (S n) =
  if (S n <=? length seg)%nat
  then (firstn (S n) seg, None, rest_segs (S n) seg rest)
  else let '(d, e, segs') := readLoop rest fin (S n - length seg) in
       (seg ++ d, e, segs').
Proof. reflexivity. Qed.

Lemma readLoop_inv (fin : error) (segs : list (list byte)) :
  forall n d e segs',
    readLoop segs fin n = (d, e, segs') ->
    concat segs = d ++ concat segs' /\ (e = None -> length d = n).
Proof.
  induction segs as [|seg rest IH]; intros n d e segs' R.
  - destruct n; simpl in R; injection R as <- <- <-; simpl; split; auto.
    discriminate.
  - destruct n as [|n'].
    + simpl in R. injection R as <- <- <-. simpl. auto.
    + rewrite readLoop_cons in R. remember (S n') as m eqn:Em.
      destruct (Nat.leb_spec m (length seg)) as [Hle|Hgt].
      * injection R as <- <- <-.
        rewrite concat_rest_segs. cbn [concat].
        rewrite app_assoc, firstn_skipn. split; [reflexivity|].
        intros _. rewrite length_firstn. lia.
      * destruct (readLoop rest fin (m - length seg)) as [[d1 e1] s1] eqn:R1.
        injection R as <- <- <-.
        destruct (IH _ _ _ _ R1) as [C L]. cbn [concat]. rewrite C, app_assoc.
        split; [reflexivity|]. intro E. rewrite length_app, (L E). lia.
Qed.

Lemma io_ReadFull_inv (u u' : NetConn) (n : nat) (d : list byte) :
  io_ReadFull u n = (d, None, u') ->
  concat (rx u) = d ++ concat (rx u') /\ length d = n /\
  tx u' = tx u /\ tx_room u' = tx_room u /\ tx_fail u' = tx_fail u /\
  rx_end u' = rx_end u.
Proof.
  unfold io_ReadFull. intro R.
  destruct (readLoop (rx u) (rx_end u) n) as [[d1 e1] s1] eqn:R1.
  destruct (readLoop_inv _ _ _ _ _ _ R1) as [C L].
  assert (e1 = None) as ->.
  { destruct e1 as [[]|]; destruct d1; try discriminate R; reflexivity. }
  injection R as <- <-. simpl. auto 8.
Qed.

Lemma conn_Read_inv (u u' : NetConn) (n : nat) (d : list byte) :
  conn_Read u n = (d, None, u') ->
  concat (rx u) = d ++ concat (rx u') /\
  tx u' = tx u /\ tx_room u' = tx_room u /\ tx_fail u' = tx_fail u /\
  rx_end u' = rx_end u.
Proof.
  unfold conn_Read. intro R. destruct n as [|n'].
  - injection R as <- <-. auto.
  - remember (S n') as m eqn:Em.
    destruct (rx u) as [|seg rest] eqn:E; [discriminate|].
    injection R as <- <-. cbn [rx tx tx_room tx_fail rx_end].
    rewrite concat_rest_segs.
    cbn [concat]. rewrite app_assoc, firstn_skipn. auto.
Qed.

(** A write whose count is not looked at, followed by a checked write of
    at least one byte, was a full write. *)
Lemma conn_Write_unchecked (u u' u'' : NetConn) (p q : list byte) (n m : nat) :
  conn_Write u p = (n, None, u') ->
  conn_Write u' q = (m, None, u'') -> m = length q -> q <> [] ->
  n = length p.
Proof.
  unfold conn_Write. intros W1 W2 L Q.
  destruct (tx_room u) as [room|].
  - destruct (Nat.leb_spec (length p) room).
    + injection W1 as <- _. reflexivity.
    + injection W1 as <- _ <-. cbn [tx_room] in W2.
      destruct q as [|b q]; [congruence|]. simpl in W2.
      injection W2 as <- _ _. discriminate.
  - injection W1 as <- _. reflexivity.
Qed.

Lemma overwrite_full (dst d : list byte) :
  length d = length dst -> overwrite dst d = d.
Proof.
  intro L. unfold overwrite. rewrite L, Nat.leb_refl.
  rewrite skipn_all. apply app_nil_r.
Qed.

Lemma overwrite_length (dst d : list byte) :
  length (overwrite dst d) = length dst.
Proof.
  unfold overwrite. destruct (Nat.leb_spec (length d) (length dst)).
  - rewrite length_app, length_skipn. lia.
  - reflexivity.
Qed.

Lemma make_length (n : nat) : length (make n) = n.
Proof. apply repeat_length. Qed.

Lemma array32_length (l : list byte) : length (array32 l) = 32%nat.
Proof.
  unfold array32. rewrite length_firstn, length_app, make_length. lia.
Qed.

Lemma array32_id (l : list byte) : length l = 32%nat -> array32 l = l.
Proof.
  intro L. unfold array32. rewrite firstn_app, L, Nat.sub_diag.
  rewrite <- L, firstn_all. simpl. apply app_nil_r.
Qed.

(** * Stepping through the methods *)

Ltac munfold :=
  repeat progress
    unfold net_Write, net_Read, net_ReadFull, net_binary_Write,
      net_binary_Read, binary_Write, binary_Read, rand_ReadFull,
      read_setup, write_setup, read_incSeq, write_incSeq, half_incSeq,
      setup, GenerateKey, makeKeys, commitNext,
      index, deref, panic, bind, ret, getc, gete, modc, mode in *.

Ltac msimpl :=
  cbn [conn env fst snd
       netConn privKey pubKey peerKey shared server writeBuf readBuf
       rekeyAfter rekeyLeft read write nextPubKey nextPrivKey nextPeerKey
       nextShared nextKeys nextIv headerBuf
       set_netConn set_privKey set_pubKey set_peerKey set_shared set_server
       set_writeBuf set_readBuf set_rekeyAfter set_rekeyLeft set_read
       set_write set_nextPubKey set_nextPrivKey set_nextPeerKey
       set_nextShared set_nextKeys set_nextIv set_headerBuf
       rx rx_end tx tx_room tx_fail aead seq
       WriteBufferSize RekeyAfterBytes KeyValidityPeriod rand_Reader now
       set_rand_Reader nth_error slice andb orb negb] in *.

Lemma Conn_ext (a b : Conn) :
  netConn a = netConn b -> privKey a = privKey b -> pubKey a = pubKey b ->
  peerKey a = peerKey b -> shared a = shared b -> server a = server b ->
  writeBuf a = writeBuf b -> readBuf a = readBuf b ->
  rekeyAfter a = rekeyAfter b -> rekeyLeft a = rekeyLeft b ->
  read a = read b -> write a = write b ->
  nextPubKey a = nextPubKey b -> nextPrivKey a = nextPrivKey b ->
  nextPeerKey a = nextPeerKey b -> nextShared a = nextShared b ->
  nextKeys a = nextKeys b -> nextIv a = nextIv b ->
  headerBuf a = headerBuf b -> a = b.
Proof.
  destruct a, b. cbn. intros. subst. reflexivity.
Qed.

Lemma Env_ext (a b : Env) :
  WriteBufferSize a = WriteBufferSize b ->
  RekeyAfterBytes a = RekeyAfterBytes b ->
  KeyValidityPeriod a = KeyValidityPeriod b ->
  rand_Reader a = rand_Reader b -> now a = now b -> a = b.
Proof.
  destruct a, b. cbn. intros. subst. reflexivity.
Qed.

Lemma State_ext (a b : State) : conn a = conn b -> env a = env b -> a = b.
Proof.
  destruct a, b. cbn. intros. subst. reflexivity.
Qed.

(** Two states are equal when their fields are. *)
Ltac state_eq :=
  apply State_ext; [apply Conn_ext|apply Env_ext]; msimpl; try reflexivity.

(** One case split on the first scrutinee of [H] that is not itself a
    case analysis. *)
Ltac mstep H :=
  msimpl;
  match type of H with
  | context [match ?x with _ => _ end] =>
      match x with
      | context [match _ with _ => _ end] => fail 1
      | _ => destruct x eqn:?; try discriminate H
      end
  end.

Ltac minv H := munfold; repeat mstep H; msimpl.

(** Boolean tests in the hypotheses become propositions. *)
Ltac bool_facts :=
  repeat match goal with
  | H : negb _ = false |- _ => apply negb_false_iff in H
  | H : negb _ = true |- _ => apply negb_true_iff in H
  | H : (_ || _)%bool = false |- _ =>
      apply orb_false_iff in H; destruct H
  | H : (_ =? _)%nat = true |- _ => apply Nat.eqb_eq in H
  | H : (_ =? _)%nat = false |- _ => apply Nat.eqb_neq in H
  | H : (_ <=? _)%nat = true |- _ => apply Nat.leb_le in H
  | H : (_ <=? _)%nat = false |- _ => apply Nat.leb_gt in H
  | H : (_ <? _)%nat = true |- _ => apply Nat.ltb_lt in H
  | H : (_ <? _)%nat = false |- _ => apply Nat.ltb_ge in H
  | H : (_ =? _)%Z = true |- _ => apply Z.eqb_eq in H
  | H : (_ =? _)%Z = false |- _ => apply Z.eqb_neq in H
  | H : (_ <=? _)%Z = true |- _ => apply Z.leb_le in H
  | H : (_ <=? _)%Z = false |- _ => apply Z.leb_gt in H
  | H : (_ <? _)%Z = true |- _ => apply Z.ltb_lt in H
  | H : (_ <? _)%Z = false |- _ => apply Z.ltb_ge in H
  end.

Lemma Normal_inj {A : Type} (a a' : A) (s s' : State) :
  Normal a s = Normal a' s' -> a = a' /\ s = s'.
Proof. intro H. injection H. auto. Qed.

(** Facts about the carrier calls of a run that went through. *)
Ltac carrier_facts :=
  repeat match goal with
  | W1 : conn_Write ?u (PutUint32 ?v) = (?n, None, ?u'),
    W2 : conn_Write ?u' ?q = (?m, None, _) |- _ =>
      assert (n = length (PutUint32 v))
        by (apply (conn_Write_unchecked _ _ _ _ _ _ _ W1 W2);
            [ unfold curve25519_ScalarBaseMult;
              rewrite ?array32_length; congruence
            | let E := fresh in
              intro E; apply (f_equal (@length byte)) in E;
              unfold curve25519_ScalarBaseMult in E;
              rewrite ?array32_length in E; cbn [length] in E; lia ]);
      apply conn_Write_full in W1; [destruct W1 as (? & ? & ?)|assumption]
  end;
  repeat match goal with
  | W : conn_Write _ _ = (_, None, _) |- _ =>
      apply conn_Write_full in W;
      [ destruct W as (? & ? & ?)
      | unfold curve25519_ScalarBaseMult;
        rewrite ?array32_length; congruence ]
  | R : io_ReadFull _ _ = (_, None, _) |- _ =>
      apply io_ReadFull_inv in R; destruct R as (? & ? & ? & ? & ? & ?)
  | R : conn_Read _ _ = (_, None, _) |- _ =>
      apply conn_Read_inv in R; destruct R as (? & ? & ? & ? & ?)
  end.

Section Handshake.

Context {crypto : Crypto}.

(** The two keys of the schedule: the first and the second block of the
    HKDF stream of (shared secret, salt). *)
Definition K0 (sh iv : list byte) : list byte :=
  firstn 16 (hkdf_New sh iv []).
Definition K1 (sh iv : list byte) : list byte :=
  firstn 16 (skipn 16 (hkdf_New sh iv [])).

(** What a handshake that returned nil did, on the client side. *)
Lemma Negotiate_client_inv (c0 : Conn) (e0 : Env) (s1 : State) :
  Negotiate false (mkState c0 e0) = Normal None s1 ->
  let priv := firstn 32 (rand_Reader e0) in
  let iv := firstn 16 (skipn 32 (rand_Reader e0)) in
  let pub := curve25519_ScalarBaseMult priv in
  exists hdr peer u1,
    let sh := curve25519_ScalarMult priv peer in
    length priv = 32%nat /\ length iv = 16%nat /\
    length hdr = 4%nat /\ length peer = 32%nat /\
    concat (rx (netConn c0)) = hdr ++ peer ++ concat (rx u1) /\
    tx u1 = tx (netConn c0) ++ PutUint32 (uint32 32) ++ pub
               ++ PutUint32 (uint32 16) ++ iv /\
    length (K0 sh iv) = 16%nat /\ length (K1 sh iv) = 16%nat /\
    s1 = mkState
           (mkConn u1 (Some priv) (Some pub) (Some peer)
                   (Some sh) false (writeBuf c0) (readBuf c0)
                   (now e0 + KeyValidityPeriod e0) (RekeyAfterBytes e0)
                   (Some (mkHalf (Some (K0 sh iv)) (make NonceSize)))
                   (Some (mkHalf (Some (K1 sh iv)) (make NonceSize)))
                   (nextPubKey c0) (nextPrivKey c0) (nextPeerKey c0)
                   (nextShared c0) (nextKeys c0) (nextIv c0)
                   (make (4 + Overhead)))
           (set_rand_Reader (skipn 16 (skipn 32 (rand_Reader e0))) e0).
Proof.
  intro H. unfold Negotiate in H.
  minv H; change aes_BlockSize with 16%nat in *; bool_facts;
    try congruence.
  apply Normal_inj in H. destruct H as [_ <-].
  carrier_facts.
  match goal with
  | R1 : concat (rx _) = ?hdr ++ _, R2 : concat (rx _) = ?peer ++ concat (rx ?u) ,
    W : tx ?u1 = _ ++ firstn 16 _ |- _ =>
      exists hdr, peer, u1
  end.
  msimpl. unfold K0, K1.
  repeat match goal with |- _ /\ _ => split end;
    try assumption; try (rewrite length_firstn; lia).
  - repeat match goal with E : rx _ = rx _ |- _ => rewrite E in * end.
    etransitivity; [eassumption|]. f_equal. assumption.
  - repeat match goal with E : tx _ = _ |- _ => rewrite E end.
    match goal with E : length (firstn 16 _) = 16%nat |- _ => rewrite E end.
    change (Z.of_nat 16) with 16. rewrite <- !app_assoc. reflexivity.
  - rewrite overwrite_full by (rewrite make_length; assumption).
    unfold set_rand_Reader. msimpl. reflexivity.
Qed.

Lemma Uint32_None (d : list byte) : Uint32 d = None -> length d <> 4%nat.
Proof.
  destruct d as [|? [|? [|? [|? d]]]]; simpl; try discriminate; lia.
Qed.

(** What a handshake that returned nil did, on the server side. *)
Lemma Negotiate_server_inv (c0 : Conn) (e0 : Env) (s1 : State) :
  Negotiate true (mkState c0 e0) = Normal None s1 ->
  let priv := firstn 32 (rand_Reader e0) in
  let pub := curve25519_ScalarBaseMult priv in
  exists hdr peer ivhdr iv u1 w,
    let sh := curve25519_ScalarMult priv peer in
    length priv = 32%nat /\
    length hdr = 4%nat /\ length peer = 32%nat /\ length ivhdr = 4%nat /\
    Uint32 ivhdr = Some w /\ length iv = Z.to_nat w /\
    concat (rx (netConn c0)) = hdr ++ peer ++ ivhdr ++ iv ++ concat (rx u1) /\
    tx u1 = tx (netConn c0) ++ PutUint32 (uint32 32) ++ pub /\
    length (K0 sh iv) = 16%nat /\ length (K1 sh iv) = 16%nat /\
    s1 = mkState
           (mkConn u1 (Some priv) (Some pub) (Some peer)
                   (Some sh) true (writeBuf c0) (readBuf c0)
                   (now e0 + KeyValidityPeriod e0) (RekeyAfterBytes e0)
                   (Some (mkHalf (Some (K1 sh iv)) (make NonceSize)))
                   (Some (mkHalf (Some (K0 sh iv)) (make NonceSize)))
                   (nextPubKey c0) (nextPrivKey c0) (nextPeerKey c0)
                   (nextShared c0) (nextKeys c0) (nextIv c0)
                   (make (4 + Overhead)))
           (set_rand_Reader (skipn 32 (rand_Reader e0)) e0).
Proof.
  intro H. unfold Negotiate in H.
  minv H; change aes_BlockSize with 16%nat in *; bool_facts;
    try congruence.
  all: apply Normal_inj in H; destruct H as [_ <-].
  all: carrier_facts.
  all: try match goal with
       | U : Uint32 ?d = None, L : length ?d = 4%nat |- _ =>
           exfalso; exact (Uint32_None d U L)
       end.
  all: match goal with
  | R1 : concat (rx _) = ?hdr ++ _, R2 : concat (rx _) = ?peer ++ _,
    R3 : concat (rx _) = ?ivhdr ++ _, U : Uint32 ?ivhdr = Some ?w,
    R4 : concat (rx _) = ?iv ++ concat (rx ?u1), L : length ?iv = Z.to_nat ?w
    |- _ =>
      exists hdr, peer, ivhdr, iv, u1, w
  end.
  all: msimpl; unfold K0, K1.
  all: repeat match goal with |- _ /\ _ => split end;
    try assumption; try (rewrite length_firstn; lia).
  all: try (repeat match goal with E : rx _ = rx _ |- _ => rewrite E in * end;
    repeat (etransitivity; [eassumption|]; f_equal); assumption).
  all: try (repeat match goal with E : tx _ = _ |- _ => rewrite E end;
            rewrite <- !app_assoc; reflexivity).
  all: rewrite overwrite_full by (rewrite make_length; assumption);
    unfold set_rand_Reader; msimpl; reflexivity.
Qed.

(** The key of a half, when the half and its AEAD are there. *)
Definition half_key (h : option half) : option (list byte) :=
  match h with Some h' => aead h' | None => None end.

(** The role mapping as the specification words it: the client writes
    with K0 and reads with K1, the server the reverse. *)
Definition spec_roles (srv : bool) (k0 k1 : list byte) (c : Conn) : Prop :=
  half_key (write c) = Some (if srv then k1 else k0) /\
  half_key (read c) = Some (if srv then k0 else k1).

(** The role mapping that Negotiate installs: the server writes with K0
    and reads with K1, the client the reverse. *)
Definition code_roles (srv : bool) (k0 k1 : list byte) (c : Conn) : Prop :=
  half_key (write c) = Some (if srv then k0 else k1) /\
  half_key (read c) = Some (if srv then k1 else k0).

(** The salt of a finished handshake: the client sent it last, the
    server received it last. *)
Definition salt_of (srv : bool) (c0 c1 : Conn) (iv : list byte) : Prop :=
  if srv
  then exists pre, concat (rx (netConn c0))
                   = pre ++ iv ++ concat (rx (netConn c1))
  else exists pre, tx (netConn c1) = pre ++ iv /\ length iv = 16%nat.

(** C2, as amended. When Negotiate returns nil, the two halves are keyed
    from the HKDF stream of (shared secret, salt), whose first 16 bytes are
    K0 and next 16 bytes K1: the server writes with K0 and reads with K1,
    and the client writes with K1 and reads with K0. *)
Theorem Negotiate_key_roles (srv : bool) (c0 : Conn) (e0 : Env) (s1 : State) :
  Negotiate srv (mkState c0 e0) = Normal None s1 ->
  exists sh iv,
    shared (conn s1) = Some sh /\ salt_of srv c0 (conn s1) iv /\
    code_roles srv (K0 sh iv) (K1 sh iv) (conn s1).
Proof.
  intro H. destruct srv.
  - destruct (Negotiate_server_inv _ _ _ H)
      as (hdr & peer & ivhdr & iv & u1 & w & _ & _ & _ & _ & _ & _ & R & _ & _
          & _ & ->).
    eexists _, iv. cbn [conn shared]. split; [reflexivity|]. split.
    + exists (hdr ++ peer ++ ivhdr). cbn [netConn].
      rewrite R, <- !app_assoc. reflexivity.
    + split; reflexivity.
  - destruct (Negotiate_client_inv _ _ _ H)
      as (hdr & peer & u1 & _ & Liv & _ & _ & _ & T & _ & _ & ->).
    eexists _, _. cbn [conn shared]. split; [reflexivity|]. split.
    + eexists. cbn [netConn]. split; [|exact Liv].
      rewrite T, !app_assoc. reflexivity.
    + split; reflexivity.
Qed.

End Handshake.

(** A client and a server of the small implementation, each fed with the
    bytes the other one sends. *)
Module Run.

Definition crypto := Toy.crypto.

Definition server_entropy : list byte :=
  map (fun i => byte_of_Z (100 + Z.of_nat i)) (List.seq 0 32).

Definition server_hello : list byte :=
  PutUint32 32 ++ curve25519_ScalarBaseMult (crypto := crypto) server_entropy.

Definition client0 : State :=
  mkState (fst (NewConn (Toy.pipe [server_hello]))) (Toy.world 1 128).

Definition client1 : State :=
  Eval vm_compute in
    match Negotiate (crypto := crypto) false client0 with
    | Normal _ s => s
    | _ => client0
    end.

Definition server0 : State :=
  mkState (fst (NewConn (Toy.pipe [tx (netConn (conn client1))])))
          (Toy.world 100 128).

Definition server1 : State :=
  Eval vm_compute in
    match Negotiate (crypto := crypto) true server0 with
    | Normal _ s => s
    | _ => server0
    end.

End Run.

Lemma Negotiate_key_roles_witness :
  exists sh iv,
    shared (conn Run.client1) = Some sh /\
    salt_of false (conn Run.client0) (conn Run.client1) iv /\
    code_roles false
               (K0 (crypto := Run.crypto) sh iv)
               (K1 (crypto := Run.crypto) sh iv) (conn Run.client1).
Proof.
  apply (Negotiate_key_roles (crypto := Run.crypto) false
           (conn Run.client0) (env Run.client0) Run.client1).
  vm_compute. reflexivity.
Defined.

(** C2 as the specification states it fails: after a handshake that
    returned nil the client does not write with K0 (it writes with K1, which
    differs from K0 here). *)
Lemma spec_roles_counterexample :
  Negotiate (crypto := Run.crypto) false Run.client0
  = Normal None Run.client1 /\
  exists sh iv,
    shared (conn Run.client1) = Some sh /\
    salt_of false (conn Run.client0) (conn Run.client1) iv /\
    ~ spec_roles false (K0 (crypto := Run.crypto) sh iv)
                 (K1 (crypto := Run.crypto) sh iv) (conn Run.client1).
Proof.
  split; [vm_compute; reflexivity|].
  eexists _, (firstn 16 (skipn 32 (rand_Reader (env Run.client0)))).
  split; [vm_compute; reflexivity|]. split.
  - exists (firstn 40 (tx (netConn (conn Run.client1)))).
    split; vm_compute; reflexivity.
  - intros [W _]. vm_compute in W. discriminate W.
Qed.

(** * Two endpoints over a faithful carrier *)

Lemma app_inj_length {A : Type} (a a' b b' : list A) :
  a ++ b = a' ++ b' -> length a = length a' -> a = a' /\ b = b'.
Proof.
  revert a'. induction a as [|x a IH]; intros [|x' a'] E L;
    simpl in *; try discriminate; auto.
  injection E as -> E. injection L as L.
  destruct (IH a' E L) as [-> ->]. auto.
Qed.

(** A handshake over a faithful carrier: both calls of Negotiate, on
    fresh connections, returned nil, and each side was handed exactly the
    bytes that the other side wrote. *)
Definition handshake {crypto : Crypto} (uc us : NetConn) (ec es : Env)
  (sc ss : State) : Prop :=
  tx uc = [] /\ tx us = [] /\
  Negotiate false (mkState (fst (NewConn uc)) ec) = Normal None sc /\
  Negotiate true (mkState (fst (NewConn us)) es) = Normal None ss /\
  concat (rx uc) = tx (netConn (conn ss)) /\
  concat (rx us) = tx (netConn (conn sc)).

(** The state of a connection between a handshake and the first rekey. *)
Definition established {crypto : Crypto} (u : NetConn) (priv pub peer sh : list byte)
  (srv : bool) (after left : Z) (kr kw : list byte) : Conn :=
  mkConn u (Some priv) (Some pub) (Some peer) (Some sh) srv (make 128) []
         after left
         (Some (mkHalf (Some kr) (make NonceSize)))
         (Some (mkHalf (Some kw) (make NonceSize)))
         None None None None None None (make (4 + Overhead)).

Section Agreement.

Context {crypto : Crypto} {dh : DHLaws crypto}.

(** After a handshake over a faithful carrier both sides hold the same
    shared secret and each other's public key, the read half of each side
    has the key of the write half of the other, all nonces are zero and
    nothing is left unread. *)
Lemma handshake_agreement (uc us : NetConn) (ec es : Env) (sc ss : State) :
  handshake uc us ec es sc ss ->
  exists privC privS sh iv uc' us',
    let pubC := curve25519_ScalarBaseMult privC in
    let pubS := curve25519_ScalarBaseMult privS in
    length privC = 32%nat /\ length privS = 32%nat /\
    length (K0 sh iv) = 16%nat /\ length (K1 sh iv) = 16%nat /\
    privC = firstn 32 (rand_Reader ec) /\
    privS = firstn 32 (rand_Reader es) /\
    iv = firstn 16 (skipn 32 (rand_Reader ec)) /\
    sh = curve25519_ScalarMult privC pubS /\
    conn sc = established uc' privC pubC pubS sh false
                          (now ec + KeyValidityPeriod ec) (RekeyAfterBytes ec)
                          (K0 sh iv) (K1 sh iv) /\
    conn ss = established us' privS pubS pubC sh true
                          (now es + KeyValidityPeriod es) (RekeyAfterBytes es)
                          (K1 sh iv) (K0 sh iv) /\
    env sc = set_rand_Reader (skipn 16 (skipn 32 (rand_Reader ec))) ec /\
    env ss = set_rand_Reader (skipn 32 (rand_Reader es)) es /\
    concat (rx uc') = [] /\ concat (rx us') = [] /\
    tx_room uc' = tx_room (netConn (conn sc)) /\
    tx_room us' = tx_room (netConn (conn ss)).
Proof.
  intros (Tc & Ts & Hc & Hs & Fc & Fs).
  destruct (Negotiate_client_inv _ _ _ Hc)
    as (hdrC & peerC & uc' & LprivC & Liv & LhC & LpC & RC & TC & LK0 & LK1
        & ->).
  destruct (Negotiate_server_inv _ _ _ Hs)
    as (hdrS & peerS & ivhdr & ivS & us' & w & LprivS & LhS & LpS & Lih
        & U & LivS & RS & TS & LK0' & LK1' & ->).
  cbn [NewConn fst netConn conn] in *.
  rewrite Tc in TC. rewrite Ts in TS. cbn [app] in TC, TS.
  rewrite TS in Fc. rewrite TC in Fs. rewrite RC in Fc. rewrite RS in Fs.
  (* what the client read is what the server wrote *)
  apply app_inj_length in Fc; [|rewrite LhC; reflexivity].
  destruct Fc as [-> Fc].
  rewrite <- (app_nil_r (curve25519_ScalarBaseMult _)) in Fc.
  apply app_inj_length in Fc;
    [|rewrite LpC; unfold curve25519_ScalarBaseMult;
      rewrite array32_length; reflexivity].
  destruct Fc as [-> EC].
  (* what the server read is what the client wrote *)
  apply app_inj_length in Fs; [|rewrite LhS; reflexivity].
  destruct Fs as [-> Fs].
  apply app_inj_length in Fs;
    [|rewrite LpS; unfold curve25519_ScalarBaseMult;
      rewrite array32_length; reflexivity].
  destruct Fs as [-> Fs].
  apply app_inj_length in Fs; [|rewrite Lih; reflexivity].
  destruct Fs as [-> Fs].
  assert (w = 16) as ->.
  { change (uint32 16) with 16 in U.
    rewrite Uint32_PutUint32 in U by lia. congruence. }
  rewrite <- (app_nil_r (firstn 16 _)) in Fs.
  apply app_inj_length in Fs; [|rewrite LivS, Liv; reflexivity].
  destruct Fs as [-> ES].
  rewrite (ScalarMult_comm (firstn 32 (rand_Reader es))
             (firstn 32 (rand_Reader ec))) in * by assumption.
  eexists _, _, _, _, uc', us'. cbn zeta. unfold established.
  cbn [conn env netConn make].
  repeat match goal with |- _ /\ _ => split end;
    try reflexivity; try assumption.
Qed.

End Agreement.

(** * Auth tokens *)

Section AuthTokens.

Context {crypto : Crypto}.


(** Before the handshake there is no token: the methods dereference nil
    pointers. *)
Lemma AuthToken_before_handshake (u : NetConn) (e : Env) :
  AuthToken (mkState (fst (NewConn u)) e) = Panicked /\
  PeerAuthToken (mkState (fst (NewConn u)) e) = Panicked.
Proof. split; reflexivity. Qed.

Context {dh : DHLaws crypto}.

(** After a handshake over a faithful carrier the tokens agree across the
    connection. *)
Corollary auth_tokens_after_handshake
  (uc us : NetConn) (ec es : Env) (sc ss : State) :
  handshake uc us ec es sc ss ->
  exists tc ts,
    AuthToken sc = Normal tc sc /\ PeerAuthToken ss = Normal tc ss /\
    AuthToken ss = Normal ts ss /\ PeerAuthToken sc = Normal ts sc.
Proof.
  intro H.
  destruct (handshake_agreement _ _ _ _ _ _ H)
    as (privC & privS & sh & iv & uc' & us' & _ & _ & _ & _ & _ & _ & _ & _
        & Ec & Es & _).
  unfold AuthToken, PeerAuthToken, bind, getc, deref, ret.
  rewrite Ec, Es. cbn [established shared pubKey peerKey].
  eexists _, _. repeat split.
Qed.

End AuthTokens.


(** * The read path on a DATA record that does not open *)

(** Running a method forward: unfold the state passing, compute the
    field accesses and use the equations of the context for the calls
    whose result is known. *)
Ltac mrun_step :=
  first
    [ progress msimpl
    | match goal with
      | H : ?t = _ |- context [?t] =>
          tryif is_var t then fail else rewrite H
      end
    | progress cbn [negb half_key app]
    | progress cbn [Z.eqb Pos.eqb pData pStartRekey pClientKeyUpdate
                    pFinalizeRekey]
    | rewrite Nat.eqb_refl
    | rewrite Z.eqb_refl
    | rewrite conn_Write_open
        by (cbn [tx_room]; first [assumption | reflexivity])
    | rewrite overwrite_full by congruence ].
Ltac mrun := munfold; repeat mrun_step.

Section ReadFailure.

Context {crypto : Crypto}.

(** A connection ready to read a record: both halves are keyed and no
    plaintext is pending. *)
Definition ready_to_read (c : Conn) (k n : list byte) : Prop :=
  read c = Some (mkHalf (Some k) n) /\
  half_key (write c) <> None /\
  readBuf c = [].

(** The carrier hands over a sealed header that opens, under the read
    half [(k, n)], to the header of a DATA record. *)
Definition data_header_arrives (c : Conn) (k n : list byte) (h : Z)
  (u1 : NetConn) : Prop :=
  exists hct header,
    io_ReadFull (netConn c) (length (headerBuf c)) = (hct, None, u1) /\
    Open k n hct = Some header /\
    Uint32 header = Some h /\ header_cmd h = pData.

(** With nothing pending, Read goes to the carrier. *)
Lemma Read_empty (s : State) (fuel len_buf : nat) :
  readBuf (conn s) = [] ->
  Read fuel len_buf s = Read_retry fuel len_buf s.
Proof.
  intro B. destruct s as [cn e]. destruct cn. cbn [conn readBuf] in B. subst.
  unfold Read, Buffer_Read. munfold. reflexivity.
Qed.

(** Pending plaintext is handed out before anything is read from the
    carrier. *)
Lemma Read_drain (s : State) (b : list byte) (fuel len_buf : nat) :
  readBuf (conn s) = b -> b <> [] -> (0 < len_buf)%nat ->
  Read fuel len_buf s
  = Normal (firstn len_buf b, None)
           (mkState (set_readBuf (skipn len_buf b) (conn s)) (env s)).
Proof.
  intros B NE L. unfold Read, Buffer_Read. munfold. rewrite B.
  destruct b as [|x b]; [congruence|].
  destruct len_buf as [|m]; [lia|]. reflexivity.
Qed.

(** What Read does when the payload of a DATA record does not open:
    whatever the carrier reported while the payload was read, the error is
    the one of the AEAD, and the bytes that were received stay in the
    overflow buffer. *)
Lemma Read_open_failure (s : State) (k n : list byte) (h : Z)
  (u1 u2 : NetConn) (got : list byte) (e : option error)
  (fuel len_buf : nat) :
  ready_to_read (conn s) k n ->
  data_header_arrives (conn s) k n h u1 ->
  io_CopyN u1 (Z.to_nat (uint32 (header_cnt h + uint32 (Z.of_nat Overhead))))
  = (got, e, u2) ->
  Open k (incSeq n) got = None ->
  exists s',
    Read (S fuel) len_buf s = Normal ([], Some ErrOpen) s' /\
    readBuf (conn s') = got /\ netConn (conn s') = u2.
Proof.
  intros (R & W & B) (hct & header & HR & HO & HU & HC) CN O2.
  destruct s as [c e0]. destruct c.
  cbn [conn readBuf read write netConn headerBuf] in *.
  subst. destruct write0 as [[[kw|] nw]|]; cbn [half_key aead] in W;
    try congruence.
  apply io_ReadFull_inv in HR as HR'. destruct HR' as (_ & HL & _).
  rewrite Read_empty by reflexivity. cbn [Read_retry]. mrun.
  eexists. repeat split; reflexivity.
Qed.

(** C8, the behaviour of the code. When the carrier fails with [err]
    while the payload of a DATA record is read, so that fewer bytes than the
    header announced arrive, and the AEAD rejects what did arrive, Read
    returns the AEAD's error: the error of the carrier is dropped. *)
Theorem Read_drops_carrier_error (s : State) (k n : list byte) (h : Z)
  (u1 u2 : NetConn) (got : list byte) (err : error) (fuel len_buf : nat) :
  ready_to_read (conn s) k n ->
  data_header_arrives (conn s) k n h u1 ->
  io_CopyN u1 (Z.to_nat (uint32 (header_cnt h + uint32 (Z.of_nat Overhead))))
  = (got, Some err, u2) ->
  Open k (incSeq n) got = None ->
  exists s', Read (S fuel) len_buf s = Normal ([], Some ErrOpen) s'.
Proof.
  intros R H C O.
  destruct (Read_open_failure s k n h u1 u2 got (Some err) fuel len_buf
              R H C O) as (s' & E & _).
  exists s'. exact E.
Qed.


End ReadFailure.

(** A record that is damaged on its way from the server to the client. *)
Module Damaged.

Definition crypto := Run.crypto.

Definition hello : list byte := map byte_of_Z [104; 101; 108; 108; 111].

Definition server2 : State :=
  Eval vm_compute in
    match Write (crypto := crypto) 1 hello Run.server1 with
    | Normal _ s => s
    | _ => Run.server1
    end.

(** The record of "hello": 20 bytes of sealed header, 21 of payload. *)
Definition wire : list byte :=
  Eval vm_compute in
    skipn (length (tx (netConn (conn Run.server1))))
          (tx (netConn (conn server2))).

Definition deliver (segs : list (list byte)) (fin : error) (s : State)
  : State :=
  mkState
    (set_netConn (mkNetConn segs fin (tx (netConn (conn s)))
                            (tx_room (netConn (conn s)))
                            (tx_fail (netConn (conn s))))
                 (conn s))
    (env s).

(** The carrier breaks with [ErrNet 7] three bytes into the payload. *)
Definition client_cut : State :=
  Eval vm_compute in deliver [firstn 23 wire] (ErrNet 7) Run.client1.


End Damaged.

Lemma Read_drops_carrier_error_witness :
  exists s',
    Read (crypto := Damaged.crypto) 1 10 Damaged.client_cut
    = Normal ([], Some ErrOpen) s'.
Proof.
  eapply (Read_drops_carrier_error (crypto := Damaged.crypto)
            Damaged.client_cut _ _ _ _ _ _ (ErrNet 7) 0 10).
  - split; [|split]; [vm_compute; reflexivity | discriminate | reflexivity].
  - eexists _, _. split; [vm_compute; reflexivity|].
    split; [vm_compute; reflexivity|].
    split; vm_compute; reflexivity.
  - vm_compute. reflexivity.
  - vm_compute. reflexivity.
Defined.


(** * The write path *)

(** The pieces into which the loop of Write cuts a buffer when the scratch
    buffer is [m] bytes long, with the iteration bound [fuel] of the loop. *)
Fixpoint chunks (fuel m : nat) (buf : list byte) : list (list byte) :=
  match buf with
  | [] => []
  | _ :: _ =>
    match fuel with
    | O => []
    | S fuel' => firstn m buf :: chunks fuel' m (skipn m buf)
    end
  end.

(** The bytes of the DATA records of a list of chunks, sealed under the
    key [k] from the nonce [n] on: a sealed header, then the sealed chunk. *)
Fixpoint dataRecords {crypto : Crypto} (k n : list byte)
  (cs : list (list byte)) : list byte :=
  match cs with
  | [] => []
  | c :: cs' =>
      Seal k n (PutUint32 (Write_headerInt (length c)))
      ++ Seal k (incSeq n) c
      ++ dataRecords k (incSeq (incSeq n)) cs'
  end.

(** The nonce after [i] records. *)
Fixpoint seq_after (i : nat) (n : list byte) : list byte :=
  match i with
  | O => n
  | S i' => seq_after i' (incSeq (incSeq n))
  end.

Section WritePath.

Context {crypto : Crypto}.

Lemma chunks_S (fuel m : nat) (buf : list byte) :
  buf <> [] ->
  chunks (S fuel) m buf = firstn m buf :: chunks fuel m (skipn m buf).
Proof. destruct buf; [congruence|reflexivity]. Qed.

Lemma seq_after_S (i : nat) (n : list byte) :
  seq_after (S i) n = seq_after i (incSeq (incSeq n)).
Proof. reflexivity. Qed.

(** What the loop of Write does: it touches the carrier, the scratch
    buffer and the write half only, and when it returns without error it
    returns [total] and has emitted the DATA records of the chunks of the
    buffer, in order, each under the next two nonces. *)
Lemma Write_loop_inv (fuel : nat) :
  forall total buf s cnt r s' k n,
    write (conn s) = Some (mkHalf (Some k) n) ->
    Write_loop fuel total buf s = Normal (cnt, r) s' ->
    exists u' wb' n',
      s' = mkState (set_write (Some (mkHalf (Some k) n'))
                      (set_writeBuf wb' (set_netConn u' (conn s))))
                   (env s) /\
      length wb' = length (writeBuf (conn s)) /\
      (r = None ->
       let cs := chunks fuel (length (writeBuf (conn s))) buf in
       cnt = total /\ concat cs = buf /\
       tx u' = tx (netConn (conn s)) ++ dataRecords k n cs /\
       rx u' = rx (netConn (conn s)) /\
       rx_end u' = rx_end (netConn (conn s)) /\
       n' = seq_after (length cs) n).
Proof.
  induction fuel as [|fuel IH]; intros total buf s cnt r s' k n W H.
  - destruct buf; cbn [Write_loop] in H; [|discriminate].
    apply Normal_inj in H. destruct H as [H <-]. injection H as <- <-.
    destruct s as [c e]. destruct c. cbn [conn write] in W. subst.
    eexists _, _, _. msimpl. repeat split; try reflexivity.
    cbn. rewrite app_nil_r. reflexivity.
  - destruct buf as [|b buf]; cbn [Write_loop] in H.
    + apply Normal_inj in H. destruct H as [H <-]. injection H as <- <-.
      destruct s as [c e]. destruct c. cbn [conn write] in W. subst.
      eexists _, _, _. msimpl. repeat split; try reflexivity.
      cbn. rewrite app_nil_r. reflexivity.
    + destruct s as [c e]. destruct c. cbn [conn write] in W. subst.
      remember (b :: buf) as bs eqn:Ebs.
      minv H; bool_facts.
      all: lazymatch type of H with
           | Normal _ _ = Normal _ _ =>
               apply Normal_inj in H; destruct H as [H <-];
               injection H as <- <-;
               eexists _, _, _;
               split; [state_eq|]; split;
               [msimpl; rewrite ?overwrite_length; reflexivity
               |let E := fresh in intro E; discriminate E]
           | _ => idtac
           end.
      all: apply IH with (k := k) (n := incSeq (incSeq n)) in H;
        [|reflexivity].
      all: destruct H as (u' & wb' & n' & -> & L & S).
      all: msimpl; rewrite !overwrite_length in *.
      all: eexists _, _, _; split; [state_eq|]; split; [exact L|].
      all: intro E; destruct (S E) as (-> & C & T & R & RE & ->).
      all: repeat match goal with
           | Wr : conn_Write _ _ = (_, None, _) |- _ =>
               apply conn_Write_full in Wr;
               [destruct Wr as (? & ? & ?)|assumption]
           end.
      all: assert (NE : bs <> []) by (subst bs; discriminate).
      all: cbn zeta; rewrite (chunks_S _ _ _ NE);
        cbn [concat dataRecords length]; rewrite ?seq_after_S.
      1: rewrite !(firstn_all2 bs), !(skipn_all2 bs) by assumption.
      all: repeat match goal with |- _ /\ _ => split end;
        try reflexivity; try congruence.
      all: try (rewrite C; first [apply firstn_skipn | apply app_nil_r]).
      all: rewrite T;
        repeat match goal with E : tx _ = _ |- _ => rewrite E end;
        rewrite <- !app_assoc; reflexivity.
Qed.

Lemma chunks_bound (fuel m : nat) :
  forall buf, (0 < m)%nat ->
    Forall (fun c => (0 < length c <= m)%nat) (chunks fuel m buf).
Proof.
  induction fuel as [|fuel IH]; intros buf Hm.
  - destruct buf; constructor.
  - destruct buf as [|b buf]; [constructor|].
    rewrite chunks_S by discriminate. constructor; [|apply IH; exact Hm].
    rewrite length_firstn. cbn [length]. lia.
Qed.

(** One record of sendBuffer on the wire: the sealed header, then the
    sealed payload, under two successive nonces. *)
Definition sealedRecord (k n : list byte) (cmd : Z) (payload : list byte)
  : list byte :=
  Seal k n (PutUint32 (sendBuffer_headerInt cmd (length payload)))
  ++ Seal k (incSeq n) payload.

Lemma sendBuffer_inv (cmd : Z) (payload : list byte) (s s' : State)
  (k n : list byte) :
  write (conn s) = Some (mkHalf (Some k) n) ->
  sendBuffer cmd payload s = Normal None s' ->
  exists u' wb',
    s' = mkState (set_write (Some (mkHalf (Some k) (incSeq (incSeq n))))
                    (set_writeBuf wb' (set_netConn u' (conn s))))
                 (env s) /\
    length wb' = length (writeBuf (conn s)) /\
    tx u' = tx (netConn (conn s)) ++ sealedRecord k n cmd payload /\
    rx u' = rx (netConn (conn s)) /\
    rx_end u' = rx_end (netConn (conn s)).
Proof.
  intros W H. destruct s as [c e]. destruct c. cbn [conn write] in W. subst.
  unfold sendBuffer in H. minv H; bool_facts.
  apply Normal_inj in H. destruct H as [_ <-].
  repeat match goal with
  | Wr : conn_Write _ _ = (_, None, _) |- _ =>
      apply conn_Write_full in Wr; [destruct Wr as (? & ? & ?)|assumption]
  end.
  eexists _, _. split; [state_eq|]. msimpl. unfold sealedRecord.
  split; [apply overwrite_length|].
  repeat split; try congruence.
  repeat match goal with E : tx _ = _ |- _ => rewrite E end.
  rewrite <- !app_assoc. reflexivity.
Qed.

Lemma startRekey_inv (s s' : State) (k n : list byte) :
  write (conn s) = Some (mkHalf (Some k) n) ->
  startRekey s = Normal None s' ->
  let r := rand_Reader (env s) in
  let priv := firstn 32 r in
  let pub := curve25519_ScalarBaseMult priv in
  let iv := firstn 16 (skipn 32 r) in
  exists u' wb',
    s' = mkState
           (set_write (Some (mkHalf (Some k) (incSeq (incSeq n))))
              (set_writeBuf wb'
                 (set_netConn u'
                    (set_nextIv (Some iv)
                       (set_nextPrivKey (Some priv)
                          (set_nextPubKey (Some pub)
                             (set_rekeyAfter
                                (now (env s) + KeyValidityPeriod (env s))
                                (set_rekeyLeft (RekeyAfterBytes (env s))
                                               (conn s)))))))))
           (set_rand_Reader (skipn 16 (skipn 32 r)) (env s)) /\
    length wb' = length (writeBuf (conn s)) /\
    length priv = 32%nat /\ length iv = 16%nat /\
    tx u' = tx (netConn (conn s)) ++ sealedRecord k n pStartRekey (pub ++ iv) /\
    rx u' = rx (netConn (conn s)) /\
    rx_end u' = rx_end (netConn (conn s)).
Proof.
  intros W H. destruct s as [c e]. destruct c. cbn [conn write] in W. subst.
  unfold startRekey in H. change aes_BlockSize with 16%nat in H.
  minv H; bool_facts.
  apply sendBuffer_inv with (k := k) (n := n) in H; [|reflexivity].
  destruct H as (u' & wb' & -> & L & T & R & RE). msimpl.
  exists u', wb'. split; [state_eq|].
  repeat split; try assumption.
  rewrite length_firstn. lia.
Qed.

(** With a rekey in flight as the gate of Write sees it, Write is its
    chunk loop and nothing else. *)
Lemma Write_gate_closed (fuel : nat) (buf : list byte) (s : State) :
  nextPeerKey (conn s) <> None ->
  Write fuel buf s = Write_loop fuel (length buf) buf s.
Proof.
  intro NP. unfold Write. munfold.
  destruct (nextPeerKey (conn s)); [|congruence].
  rewrite andb_false_r. destruct s. reflexivity.
Qed.

(** The same on the client, which never starts a rekey. *)
Lemma Write_gate_client (fuel : nat) (buf : list byte) (s : State) :
  server (conn s) = false ->
  Write fuel buf s = Write_loop fuel (length buf) buf s.
Proof.
  intro C. unfold Write. munfold. rewrite C. destruct s. reflexivity.
Qed.


End WritePath.

(** * Rekey in flight *)

(** Some "next" field of the connection is set: a rekey is in flight as
    the specification words it. *)
Definition any_next (c : Conn) : Prop :=
  nextPubKey c <> None \/ nextPrivKey c <> None \/ nextIv c <> None \/
  nextPeerKey c <> None \/ nextShared c <> None \/ nextKeys c <> None.

(** A call of Write that left the rekey state alone: the byte budget and
    the deadline are as before, no randomness was drawn (so no key pair and
    no IV was generated) and the "next" fields are as before. *)
Definition rekey_untouched (s s' : State) : Prop :=
  rekeyLeft (conn s') = rekeyLeft (conn s) /\
  rekeyAfter (conn s') = rekeyAfter (conn s) /\
  env s' = env s /\
  nextPubKey (conn s') = nextPubKey (conn s) /\
  nextPrivKey (conn s') = nextPrivKey (conn s) /\
  nextIv (conn s') = nextIv (conn s) /\
  nextPeerKey (conn s') = nextPeerKey (conn s) /\
  nextShared (conn s') = nextShared (conn s) /\
  nextKeys (conn s') = nextKeys (conn s).

Section RekeyGate.

Context {crypto : Crypto}.

(** C4, as amended. Whenever the next peer key of the connection is
    non-nil, a call of Write neither charges the rekey byte budget nor
    starts a rekey: budget, deadline, random source and "next" fields are
    left as they were, and when the call succeeds the bytes it emitted are
    exactly the DATA records of the chunks of the buffer, with no
    START_REKEY record. *)
Theorem Write_during_rekey (fuel : nat) (buf : list byte) (s s' : State)
  (cnt : nat) (r : option error) (k n : list byte) :
  nextPeerKey (conn s) <> None ->
  write (conn s) = Some (mkHalf (Some k) n) ->
  Write fuel buf s = Normal (cnt, r) s' ->
  rekey_untouched s s' /\
  (r = None ->
   cnt = length buf /\
   tx (netConn (conn s'))
   = tx (netConn (conn s))
     ++ dataRecords k n (chunks fuel (length (writeBuf (conn s))) buf)).
Proof.
  intros NP W H. rewrite Write_gate_closed in H by exact NP.
  apply Write_loop_inv with (k := k) (n := n) in H; [|exact W].
  destruct H as (u' & wb' & n' & -> & L & S). split.
  - unfold rekey_untouched. msimpl. repeat split.
  - intro E. destruct (S E) as (-> & _ & T & _). msimpl. auto.
Qed.

End RekeyGate.

(** The server of the run after it wrote "hello", was told to rekey, and
    wrote again: a START_REKEY record went out and the answer of the client
    has not come yet. *)
Module Proposed.

Definition crypto := Run.crypto.

Definition server2 : State := Damaged.server2.

Definition server3 : State :=
  Eval vm_compute in
    match RekeyNext server2 with Normal _ s => s | _ => server2 end.

Definition server4 : State :=
  Eval vm_compute in
    match Write (crypto := crypto) 1 Damaged.hello server3 with
    | Normal _ s => s
    | _ => server3
    end.

(** The next Write, with the rekey still pending. *)
Definition server5 : State :=
  Eval vm_compute in
    match Write (crypto := crypto) 1 Damaged.hello server4 with
    | Normal _ s => s
    | _ => server4
    end.

(** RekeyNext once more, then a Write. *)
Definition server6 : State :=
  Eval vm_compute in
    match (RekeyNext ;;; Write (crypto := crypto) 1 Damaged.hello)%go server4 with
    | Normal _ s => s
    | _ => server4
    end.

(** The state in which a Write running beside readServerRekeyed finds the
    connection: the key of the client has just been stored. *)
Definition server_mid : State :=
  Eval vm_compute in
    mkState (set_nextPeerKey (Some (make 32)) (conn server4)) (env server4).

(** Its write key and write nonce. *)
Definition key_mid : list byte :=
  Eval vm_compute in
    match half_key (write (conn server_mid)) with Some k => k | None => [] end.
Definition seq_mid : list byte :=
  Eval vm_compute in
    match write (conn server_mid) with Some h => seq h | None => [] end.

Definition server_mid' : State :=
  Eval vm_compute in
    match Write (crypto := crypto) 1 Damaged.hello server_mid with
    | Normal _ s => s
    | _ => server_mid
    end.

End Proposed.

Lemma Write_during_rekey_witness :
  nextPeerKey (conn Proposed.server_mid) <> None /\
  Write (crypto := Proposed.crypto) 1 Damaged.hello Proposed.server_mid
  = Normal (5%nat, None) Proposed.server_mid' /\
  rekey_untouched Proposed.server_mid Proposed.server_mid' /\
  tx (netConn (conn Proposed.server_mid'))
  = tx (netConn (conn Proposed.server_mid))
    ++ dataRecords (crypto := Proposed.crypto) Proposed.key_mid
                   Proposed.seq_mid [Damaged.hello].
Proof.
  split; [discriminate|]. split; [vm_compute; reflexivity|].
  destruct (Write_during_rekey (crypto := Proposed.crypto) 1
              Damaged.hello Proposed.server_mid Proposed.server_mid'
              5 None Proposed.key_mid Proposed.seq_mid)
    as [U T].
  - discriminate.
  - reflexivity.
  - vm_compute. reflexivity.
  - split; [exact U|]. destruct (T eq_refl) as [_ T']. exact T'.
Defined.

(** C4 as the specification states it fails. With the server's next key
    pair and next IV set (and the next peer key still nil), Write charges
    the budget; and after RekeyNext it starts a second rekey: it draws a
    fresh key pair and replaces the pending one. *)
Lemma any_next_counterexample :
  server (conn Proposed.server4) = true /\
  any_next (conn Proposed.server4) /\
  Write (crypto := Proposed.crypto) 1 Damaged.hello Proposed.server4
  = Normal (5%nat, None) Proposed.server5 /\
  rekeyLeft (conn Proposed.server5) = rekeyLeft (conn Proposed.server4) - 5 /\
  ~ rekey_untouched Proposed.server4 Proposed.server5 /\
  (RekeyNext ;;; Write (crypto := Proposed.crypto) 1 Damaged.hello)%go
    Proposed.server4
  = Normal (5%nat, None) Proposed.server6 /\
  nextPubKey (conn Proposed.server6) <> nextPubKey (conn Proposed.server4) /\
  rand_Reader (env Proposed.server6) <> rand_Reader (env Proposed.server4).
Proof.
  split; [reflexivity|]. split; [left; discriminate|].
  split; [vm_compute; reflexivity|]. split; [reflexivity|].
  split; [intros (L & _); vm_compute in L; discriminate L|].
  split; [vm_compute; reflexivity|].
  split; vm_compute; discriminate.
Qed.

(** * Chunking *)

Section Chunking.

Context {crypto : Crypto}.


(** The scratch buffer of a connection is 128 bytes long from NewConn on,
    whatever the value of WriteBufferSize: the handshake does not touch
    it. *)
Lemma writeBuf_after_handshake (srv : bool) (u : NetConn) (e : Env)
  (r : option error) (s : State) :
  (if srv then NewServer u e else NewClient u e) = Normal r s ->
  Negotiate srv (mkState (fst (NewConn u)) e) = Normal None s ->
  writeBuf (conn s) = make 128.
Proof.
  intros _ H. destruct srv.
  - destruct (Negotiate_server_inv _ _ _ H)
      as (? & ? & ? & ? & ? & ? & _ & _ & _ & _ & _ & _ & _ & _ & _ & _ & ->).
    reflexivity.
  - destruct (Negotiate_client_inv _ _ _ H)
      as (? & ? & ? & _ & _ & _ & _ & _ & _ & _ & _ & ->).
    reflexivity.
Qed.

End Chunking.

(** A server created while WriteBufferSize is 64. *)
Module Tuned.

Definition crypto := Run.crypto.

Definition world64 : Env :=
  mkEnv 64 (100 * 1024 * 1024) (3600 * 1000000000)
        (map (fun i => byte_of_Z (100 + Z.of_nat i)) (List.seq 0 128)) 0.

Definition server1 : State :=
  Eval vm_compute in
    match NewServer (crypto := crypto)
                    (Toy.pipe [tx (netConn (conn Run.client1))]) world64 with
    | Normal _ s => s
    | _ => mkState (fst (NewConn (Toy.pipe []))) world64
    end.

(** A buffer of 100 bytes. *)
Definition data : list byte :=
  map (fun i => byte_of_Z (Z.of_nat i)) (List.seq 0 100).

Definition server2 : State :=
  Eval vm_compute in
    match Write (crypto := crypto) 2 data server1 with
    | Normal _ s => s
    | _ => server1
    end.

Definition key1 : list byte :=
  Eval vm_compute in
    match half_key (write (conn server1)) with Some k => k | None => [] end.
Definition seq1 : list byte :=
  Eval vm_compute in
    match write (conn server1) with Some h => seq h | None => [] end.

End Tuned.

(** C5 fails on the code for a value of the tunable other than 128. With
    WriteBufferSize set to 64 before the connection is created, Write of a
    100-byte buffer succeeds and emits one record whose chunk is the whole
    buffer, 100 bytes long: the chunk bound is the 128 of NewConn, not the
    tunable. *)
Theorem Write_ignores_WriteBufferSize :
  WriteBufferSize (env Tuned.server1) = 64 /\
  NewServer (crypto := Tuned.crypto)
            (Toy.pipe [tx (netConn (conn Run.client1))]) Tuned.world64
  = Normal None Tuned.server1 /\
  length (writeBuf (conn Tuned.server1)) = 128%nat /\
  Write (crypto := Tuned.crypto) 2 Tuned.data Tuned.server1
  = Normal (100%nat, None) Tuned.server2 /\
  tx (netConn (conn Tuned.server2))
  = tx (netConn (conn Tuned.server1))
    ++ dataRecords (crypto := Tuned.crypto) Tuned.key1 Tuned.seq1
                   [Tuned.data] /\
  chunks 2 64 Tuned.data = [firstn 64 Tuned.data; skipn 64 Tuned.data] /\
  tx (netConn (conn Tuned.server2))
  <> tx (netConn (conn Tuned.server1))
     ++ dataRecords (crypto := Tuned.crypto) Tuned.key1 Tuned.seq1
                    (chunks 2 64 Tuned.data).
Proof.
  split; [reflexivity|]. split; [vm_compute; reflexivity|].
  split; [reflexivity|]. split; [vm_compute; reflexivity|].
  split; [vm_compute; reflexivity|]. split; [reflexivity|].
  intro E. apply (f_equal (@length byte)) in E. vm_compute in E.
  discriminate E.
Qed.


(** * The read path on well-formed records *)

Section ReadPath.

Context {crypto : Crypto} {aead_laws : AEADLaws crypto}.

Lemma uint32_small (z : Z) : 0 <= z < 2 ^ 32 -> uint32 z = z.
Proof. intro H. unfold uint32. apply Z.mod_small. exact H. Qed.

Lemma int_small (z : Z) : 0 <= z < 2 ^ 63 -> int z = z.
Proof.
  intro H. unfold int. rewrite Z.mod_small by lia. lia.
Qed.

Lemma Buffer_Read_nonempty (b : list byte) (n : nat) :
  b <> [] -> Buffer_Read b n = (firstn n b, None, skipn n b).
Proof. destruct b; [congruence|reflexivity]. Qed.

Lemma Buffer_Truncate_overwrite (ct pt : list byte) :
  (length pt <= length ct)%nat ->
  Buffer_Truncate (overwrite ct pt) (length pt) = Some pt.
Proof.
  intro L. unfold Buffer_Truncate, overwrite.
  apply Nat.leb_le in L as L'. rewrite L'.
  rewrite length_app, length_skipn.
  replace (length pt <=? length pt + (length ct - length pt))%nat with true
    by (symmetry; apply Nat.leb_le; lia).
  rewrite firstn_app, Nat.sub_diag, firstn_all. cbn [firstn].
  rewrite app_nil_r. reflexivity.
Qed.

Lemma Buffer_Read_extract (c : list byte) (len_buf : nat) :
  c <> [] ->
  Buffer_Read c (if Z.of_nat len_buf <? Z.of_nat (length c)
                 then len_buf else Z.to_nat (Z.of_nat (length c)))
  = (firstn len_buf c, None, skipn len_buf c).
Proof.
  intro NE. rewrite Buffer_Read_nonempty by exact NE.
  destruct (Z.ltb_spec (Z.of_nat len_buf) (Z.of_nat (length c))).
  - reflexivity.
  - rewrite Nat2Z.id, firstn_all, skipn_all.
    rewrite firstn_all2, skipn_all2 by lia. reflexivity.
Qed.

(** Read on a DATA record that arrives whole: the first [len_buf] bytes
    of the chunk are returned, the rest stays in the overflow buffer, and
    the read nonce has advanced twice. *)
Lemma Read_retry_data (s : State) (k n c rest : list byte)
  (fuel len_buf : nat) :
  read (conn s) = Some (mkHalf (Some k) n) ->
  half_key (write (conn s)) <> None ->
  readBuf (conn s) = [] ->
  length (headerBuf (conn s)) = (4 + Overhead)%nat ->
  concat (rx (netConn (conn s)))
  = Seal k n (PutUint32 (Write_headerInt (length c)))
    ++ Seal k (incSeq n) c ++ rest ->
  c <> [] -> Z.of_nat (length c) < 2 ^ 24 ->
  exists u' hb',
    concat (rx u') = rest /\
    tx u' = tx (netConn (conn s)) /\
    tx_room u' = tx_room (netConn (conn s)) /\
    length hb' = (4 + Overhead)%nat /\
    Read_retry (S fuel) len_buf s
    = Normal (firstn len_buf c, None)
        (mkState
           (set_readBuf (skipn len_buf c)
              (set_read (Some (mkHalf (Some k) (incSeq (incSeq n))))
                 (set_headerBuf hb' (set_netConn u' (conn s)))))
           (env s)).
Proof.
  intros R W B HB RX NE LC.
  destruct s as [cn e]. destruct cn.
  cbn [conn readBuf read write netConn headerBuf] in *. subst.
  destruct write0 as [[[kw|] nw]|]; cbn [half_key aead] in W;
    try congruence.
  pose proof Overhead_bound as OB.
  (* the header *)
  destruct (io_ReadFull_exact netConn0 (length headerBuf0) _ _ RX)
    as (segs1 & RF & C1).
  { rewrite Seal_length, HB. reflexivity. }
  set (u1 := mkNetConn segs1 _ _ _ _) in RF.
  pose proof (Open_Seal k n (PutUint32 (Write_headerInt (length c)))) as O1.
  pose proof (Write_headerInt_sum (length c) LC) as HS.
  assert (U : Uint32 (PutUint32 (Write_headerInt (length c)))
              = Some (Write_headerInt (length c)))
    by (apply Uint32_PutUint32; rewrite HS; lia).
  assert (HC : header_cmd (Write_headerInt (length c)) = pData).
  { rewrite HS. change (256 * Z.of_nat (length c))
      with (0 + 256 * Z.of_nat (length c)).
    apply header_cmd_sum. unfold pData. lia. }
  assert (HN : header_cnt (Write_headerInt (length c)) = Z.of_nat (length c)).
  { rewrite HS. change (256 * Z.of_nat (length c))
      with (0 + 256 * Z.of_nat (length c)).
    apply header_cnt_sum. lia. }
  (* the payload *)
  assert (WC : Z.to_nat (uint32 (Z.of_nat (length c)
                                 + uint32 (Z.of_nat Overhead)))
               = (length c + Overhead)%nat).
  { rewrite (uint32_small (Z.of_nat Overhead)) by lia.
    rewrite uint32_small by lia. lia. }
  destruct (io_CopyN_exact u1 (length c + Overhead) _ _ C1)
    as (segs2 & e2 & CN & C2).
  { apply Seal_length. }
  pose proof (Open_Seal k (incSeq n) c) as O2.
  pose proof (Seal_length k n (PutUint32 (Write_headerInt (length c))))
    as LS.
  rewrite length_PutUint32 in LS. clear HS.
  assert (BT : Buffer_Truncate (overwrite (Seal k (incSeq n) c) c) (length c)
               = Some c)
    by (apply Buffer_Truncate_overwrite; rewrite Seal_length; lia).
  assert (INT : int (Z.of_nat (length c)) = Z.of_nat (length c))
    by (apply int_small; lia).
  pose proof (Buffer_Read_extract c len_buf NE) as BR.
  cbn [Read_retry]. mrun.
  eexists _, _.
  repeat match goal with |- _ /\ _ => split end.
  5: f_equal; state_eq.
  all: subst u1; msimpl; try reflexivity; try assumption.
  rewrite !overwrite_length. rewrite LS. reflexivity.
Qed.

Ltac len :=
  repeat (progress (cbn [length concat app] in *;
                    rewrite ?length_app, ?length_firstn, ?length_skipn in *));
  lia.

(** A reader in step with the writer: its read half has the key and the
    nonce under which the records [cs] still on the carrier were sealed,
    and [pending] is the plaintext it has not handed out yet. *)
Definition reading (s : State) (k n pending : list byte)
  (cs : list (list byte)) : Prop :=
  read (conn s) = Some (mkHalf (Some k) n) /\
  half_key (write (conn s)) <> None /\
  readBuf (conn s) = pending /\
  length (headerBuf (conn s)) = (4 + Overhead)%nat /\
  concat (rx (netConn (conn s))) = dataRecords k n cs.

Definition chunk_ok (c : list byte) : Prop :=
  (0 < length c)%nat /\ Z.of_nat (length c) < 2 ^ 24.

(** Reading until the pending plaintext and all the records are consumed
    yields them in order, whatever the sizes of the buffers passed to
    Read, as long as none is empty. *)
Lemma readUntil_data (rfuel : nat) (sz : nat -> nat) (need : nat) :
  (1 <= rfuel)%nat -> (forall i, 0 < sz i)%nat ->
  forall fuel s k n pending cs acc,
    reading s k n pending cs ->
    Forall chunk_ok cs ->
    (length pending + length (concat cs) <= fuel)%nat ->
    need = (length acc + length pending + length (concat cs))%nat ->
    exists s',
      readUntil fuel rfuel sz need acc s
      = Normal (acc ++ pending ++ concat cs, None) s'.
Proof.
  intros RF SZ. destruct rfuel as [|rf]; [lia|]. clear RF.
  induction fuel as [|fuel IH]; intros s k n pending cs acc I OK F N.
  - (* nothing is left *)
    destruct pending; [|cbn [length] in F; lia].
    destruct cs as [|c cs].
    + exists s. cbn [readUntil concat app length] in *.
      replace (need <=? length acc)%nat with true
        by (symmetry; apply Nat.leb_le; lia).
      rewrite app_nil_r. reflexivity.
    + exfalso. destruct (Forall_inv OK) as [L _].
      cbn [concat length] in F. rewrite length_app in F. lia.
  - destruct (Nat.eq_dec (length pending + length (concat cs)) 0) as [Z|NZ].
    + (* nothing is left *)
      destruct pending; [|cbn [length] in Z; lia].
      destruct cs as [|c cs].
      * exists s. cbn [readUntil concat app length] in *.
        replace (need <=? length acc)%nat with true
          by (symmetry; apply Nat.leb_le; lia).
        rewrite app_nil_r. reflexivity.
      * exfalso. destruct (Forall_inv OK) as [L _].
        cbn [concat length] in Z. rewrite length_app in Z. lia.
    + cbn [readUntil].
      replace (need <=? length acc)%nat with false
        by (symmetry; apply Nat.leb_gt; lia).
      destruct I as (R & W & B & HB & RX).
      pose proof (SZ (length acc)) as Hz. set (z := sz (length acc)) in *.
      unfold bind at 1.
      destruct pending as [|p pending].
      * (* a record is read *)
        destruct cs as [|c cs]; [cbn [concat length] in NZ; lia|].
        destruct (Forall_inv OK) as [Lc Lc'].
        apply Forall_inv_tail in OK.
        rewrite (Read_empty _ _ _ B).
        cbn [dataRecords] in RX.
        destruct (Read_retry_data s k n c _ rf z R W B HB RX)
          as (u' & hb' & C' & _ & _ & HB' & E).
        { destruct c; [cbn [length] in Lc; lia|discriminate]. }
        { exact Lc'. }
        rewrite E. cbn beta iota.
        match goal with
        | |- exists _, readUntil _ _ _ _ _ ?s1 = _ =>
            destruct (IH s1 k (incSeq (incSeq n)) (skipn z c) cs
                         (acc ++ firstn z c)) as (s' & E')
        end.
        { unfold reading. msimpl. repeat split; assumption. }
        { exact OK. }
        { len. }
        { len. }
        exists s'. rewrite E'. f_equal. f_equal.
        cbn [concat app]. rewrite <- !app_assoc.
        rewrite (app_assoc (firstn z c)), firstn_skipn. reflexivity.
      * (* pending plaintext is handed out *)
        rewrite (Read_drain s (p :: pending) (S rf) z B) by
          (try discriminate; exact Hz).
        cbn beta iota.
        destruct (IH (mkState (set_readBuf (skipn z (p :: pending)) (conn s))
                              (env s))
                     k n (skipn z (p :: pending)) cs
                     (acc ++ firstn z (p :: pending))) as (s' & E').
        { unfold reading. msimpl. repeat split; assumption. }
        { exact OK. }
        { len. }
        { len. }
        exists s'. rewrite E'. f_equal. f_equal.
        rewrite <- !app_assoc.
        rewrite (app_assoc (firstn z (p :: pending))), firstn_skipn.
        reflexivity.
Qed.


Context {kdf_laws : KDFLaws crypto}.

(** A call whose outcome is known, in a sequence. *)
Lemma bind_Normal {A B : Type} (m : M A) (f : A -> M B) (s s' : State) (a : A) :
  m s = Normal a s' -> bind m f s = f a s'.
Proof. intro E. unfold bind. rewrite E. reflexivity. Qed.

(** readAndCheck on a payload that arrives whole and was sealed under the
    read half: the plaintext is returned and the nonce advances once. *)
Lemma readAndCheck_sealed (s : State) (k n payload rest : list byte) :
  read (conn s) = Some (mkHalf (Some k) n) ->
  concat (rx (netConn (conn s))) = Seal k n payload ++ rest ->
  Z.of_nat (length payload) < 2 ^ 24 ->
  exists segs,
    concat segs = rest /\
    readAndCheck (Z.of_nat (length payload)) s
    = Normal (payload, None)
        (mkState
           (set_read (Some (mkHalf (Some k) (incSeq n)))
              (set_netConn
                 (mkNetConn segs (rx_end (netConn (conn s)))
                    (tx (netConn (conn s))) (tx_room (netConn (conn s)))
                    (tx_fail (netConn (conn s))))
                 (conn s)))
           (env s)).
Proof.
  intros R RX LP.
  destruct s as [cn e]. destruct cn.
  cbn [conn env read netConn] in *. subst.
  pose proof Overhead_bound as OB.
  assert (IW : int (int (Z.of_nat (length payload)) + Z.of_nat Overhead)
               = Z.of_nat (length payload + Overhead))
    by (rewrite (int_small (Z.of_nat (length payload))) by lia;
        rewrite int_small by lia; lia).
  assert (NEG : (Z.of_nat (length payload + Overhead) <? 0) = false)
    by (apply Z.ltb_ge; lia).
  pose proof (Nat2Z.id (length payload + Overhead)) as TN.
  pose proof (Seal_length k n payload) as LPC.
  destruct (io_ReadFull_exact netConn0 (length payload + Overhead) _ _
              RX LPC) as (segs & RF & C).
  pose proof (Open_Seal k n payload) as O.
  exists segs. split; [exact C|].
  unfold readAndCheck. mrun. reflexivity.
Qed.

(** sendBuffer on a carrier that accepts everything: one record goes
    out, under the next two nonces of the write half. *)
Lemma sendBuffer_open (cmd : Z) (payload : list byte) (s : State)
  (k n : list byte) :
  write (conn s) = Some (mkHalf (Some k) n) ->
  tx_room (netConn (conn s)) = None ->
  sendBuffer cmd payload s
  = Normal None
      (mkState
         (set_write (Some (mkHalf (Some k) (incSeq (incSeq n))))
            (set_netConn
               (mkNetConn (rx (netConn (conn s))) (rx_end (netConn (conn s)))
                  (tx (netConn (conn s)) ++ sealedRecord k n cmd payload)
                  None (tx_fail (netConn (conn s))))
               (set_writeBuf
                  (overwrite (writeBuf (conn s))
                     (Seal k n
                        (PutUint32
                           (sendBuffer_headerInt cmd (length payload)))))
                  (conn s))))
         (env s)).
Proof.
  intros W TR.
  destruct s as [cn e]. destruct cn.
  cbn [conn env write netConn writeBuf] in *. subst.
  unfold sendBuffer. mrun. f_equal. state_eq.
  unfold sealedRecord. rewrite app_assoc. reflexivity.
Qed.

(** sendClientRekey on a carrier that accepts everything: a key pair is
    drawn, the CLIENT_KEY_UPDATE record goes out under the current write
    key, and the write half gets the second key of the next schedule. *)
Lemma sendClientRekey_open (s : State) (kw nw pk iv : list byte) :
  write (conn s) = Some (mkHalf (Some kw) nw) ->
  tx_room (netConn (conn s)) = None ->
  nextPeerKey (conn s) = Some pk ->
  nextIv (conn s) = Some iv ->
  (32 <= length (rand_Reader (env s)))%nat ->
  let priv := firstn 32 (rand_Reader (env s)) in
  let pub := curve25519_ScalarBaseMult priv in
  let sh := curve25519_ScalarMult priv pk in
  sendClientRekey s
  = Normal None
      (mkState
         (set_write (Some (mkHalf (Some (K1 sh iv)) (make NonceSize)))
            (set_nextKeys (Some [K0 sh iv; K1 sh iv])
               (set_nextShared (Some sh)
                  (set_netConn
                     (mkNetConn (rx (netConn (conn s)))
                        (rx_end (netConn (conn s)))
                        (tx (netConn (conn s))
                         ++ sealedRecord kw nw pClientKeyUpdate pub)
                        None (tx_fail (netConn (conn s))))
                     (set_writeBuf
                        (overwrite (writeBuf (conn s))
                           (Seal kw nw
                              (PutUint32
                                 (sendBuffer_headerInt pClientKeyUpdate
                                    (length pub)))))
                        (set_nextPrivKey (Some priv)
                           (set_nextPubKey (Some pub) (conn s))))))))
         (set_rand_Reader (skipn 32 (rand_Reader (env s))) (env s))).
Proof.
  intros W TR NP NI RND priv pub sh.
  destruct s as [cn e]. destruct cn.
  cbn [conn env write netConn writeBuf nextPeerKey nextIv] in *. subst.
  apply Nat.leb_le in RND as RB.
  pose proof (hkdf_New_length sh iv []) as KL.
  assert (K1L : (length (firstn aes_BlockSize (hkdf_New sh iv []))
                 =? aes_BlockSize)%nat = true)
    by (apply Nat.eqb_eq; rewrite length_firstn; unfold aes_BlockSize; lia).
  assert (K2L : (length (firstn aes_BlockSize
                           (skipn aes_BlockSize (hkdf_New sh iv [])))
                 =? aes_BlockSize)%nat = true)
    by (apply Nat.eqb_eq; rewrite length_firstn, length_skipn;
        unfold aes_BlockSize; lia).
  assert (SU : ((length (firstn aes_BlockSize
                           (skipn aes_BlockSize (hkdf_New sh iv [])))
                 =? 16)%nat
                || (length (firstn aes_BlockSize
                              (skipn aes_BlockSize (hkdf_New sh iv [])))
                    =? 24)%nat
                || (length (firstn aes_BlockSize
                              (skipn aes_BlockSize (hkdf_New sh iv [])))
                    =? 32)%nat)%bool = true)
    by (apply Bool.orb_true_iff; left; apply Bool.orb_true_iff; left;
        exact K2L).
  subst sh pub priv.
  unfold sendClientRekey.
  mrun.
  rewrite (sendBuffer_open _ _ _ kw nw)
    by (msimpl; first [reflexivity | assumption]).
  mrun. reflexivity.
Qed.

(** readRekey on a START_REKEY payload that arrives whole: the peer's
    next key and the IV are stored and the client's key update is sent. *)
Lemma readRekey_sealed (s : State) (k n kw nw pk iv rest : list byte) :
  read (conn s) = Some (mkHalf (Some k) n) ->
  write (conn s) = Some (mkHalf (Some kw) nw) ->
  concat (rx (netConn (conn s))) = Seal k n (pk ++ iv) ++ rest ->
  length pk = 32%nat -> length iv = 16%nat ->
  (32 <= length (rand_Reader (env s)))%nat ->
  tx_room (netConn (conn s)) = None ->
  exists s1,
    readRekey (Z.of_nat (length (pk ++ iv))) s = Normal None s1 /\
    read (conn s1) = Some (mkHalf (Some k) (incSeq n)) /\
    half_key (write (conn s1)) <> None /\
    readBuf (conn s1) = readBuf (conn s) /\
    headerBuf (conn s1) = headerBuf (conn s) /\
    concat (rx (netConn (conn s1))) = rest /\
    tx_room (netConn (conn s1)) = None /\
    rand_Reader (env s1) = skipn 32 (rand_Reader (env s)).
Proof.
  intros R W RX Lpk Liv RND TR.
  assert (LP : length (pk ++ iv) = 48%nat) by (rewrite length_app; lia).
  assert (P1 : firstn cKeySize (pk ++ iv) = pk)
    by (unfold cKeySize; rewrite <- Lpk, firstn_app, Nat.sub_diag,
          firstn_all; apply app_nil_r).
  assert (P2 : skipn cKeySize (pk ++ iv) = iv)
    by (unfold cKeySize; rewrite <- Lpk, skipn_app, Nat.sub_diag,
          skipn_all; reflexivity).
  destruct (readAndCheck_sealed s k n (pk ++ iv) rest R RX)
    as (segs & C & E); [rewrite LP; cbn; lia|].
  remember (pk ++ iv) as payload eqn:EP.
  assert (EQ48 : (length payload =? cKeySize + aes_BlockSize)%nat = true)
    by (rewrite LP; reflexivity).
  unfold readRekey. unfold bind at 1. rewrite E. cbn beta iota.
  rewrite EQ48. cbn [negb]. munfold. msimpl. rewrite P1, P2.
  rewrite (sendClientRekey_open _ kw nw pk iv)
    by (msimpl; first [reflexivity | assumption]).
  eexists. split; [reflexivity|]. msimpl.
  repeat match goal with |- _ /\ _ => split end;
    first [reflexivity | discriminate | exact C].
Qed.

(** Read on a START_REKEY record: the client answers with its
    CLIENT_KEY_UPDATE, installs the next write key, keeps the read key
    with the nonce advanced twice, and goes back to the label. *)
Lemma Read_retry_start_rekey (s : State) (k n kw nw pk iv rest : list byte)
  (fuel len_buf : nat) :
  read (conn s) = Some (mkHalf (Some k) n) ->
  write (conn s) = Some (mkHalf (Some kw) nw) ->
  length (headerBuf (conn s)) = (4 + Overhead)%nat ->
  concat (rx (netConn (conn s)))
  = sealedRecord k n pStartRekey (pk ++ iv) ++ rest ->
  length pk = 32%nat -> length iv = 16%nat ->
  (32 <= length (rand_Reader (env s)))%nat ->
  tx_room (netConn (conn s)) = None ->
  exists s1,
    Read_retry (S fuel) len_buf s = Read_retry fuel len_buf s1 /\
    read (conn s1) = Some (mkHalf (Some k) (incSeq (incSeq n))) /\
    half_key (write (conn s1)) <> None /\
    readBuf (conn s1) = readBuf (conn s) /\
    length (headerBuf (conn s1)) = (4 + Overhead)%nat /\
    concat (rx (netConn (conn s1))) = rest /\
    tx_room (netConn (conn s1)) = None /\
    rand_Reader (env s1) = skipn 32 (rand_Reader (env s)).
Proof.
  intros R W HB RX Lpk Liv RND TR.
  destruct s as [cn e]. destruct cn.
  cbn [conn env readBuf read write netConn headerBuf] in *. subst.
  pose proof Overhead_bound as OB.
  assert (LP : length (pk ++ iv) = 48%nat) by (rewrite length_app; lia).
  unfold sealedRecord in RX. rewrite <- app_assoc in RX.
  remember (sendBuffer_headerInt pStartRekey (length (pk ++ iv))) as H eqn:EH.
  assert (HS : H = pStartRekey + 256 * Z.of_nat (length (pk ++ iv)))
    by (subst H; apply sendBuffer_headerInt_sum; unfold pStartRekey; lia).
  (* the header *)
  destruct (io_ReadFull_exact netConn0 (length headerBuf0) _ _ RX)
    as (segs1 & RF & C1).
  { rewrite Seal_length, HB. reflexivity. }
  pose proof (Open_Seal k n (PutUint32 H)) as O1.
  assert (U : Uint32 (PutUint32 H) = Some H)
    by (apply Uint32_PutUint32; rewrite HS; unfold pStartRekey; lia).
  assert (HC : header_cmd H = pStartRekey)
    by (rewrite HS; apply header_cmd_sum; unfold pStartRekey; lia).
  assert (HN : header_cnt H = Z.of_nat (length (pk ++ iv)))
    by (rewrite HS; apply header_cnt_sum; unfold pStartRekey; lia).
  pose proof (Seal_length k n (PutUint32 H)) as LS.
  rewrite length_PutUint32 in LS. clear HS EH.
  cbn [Read_retry]. mrun.
  match goal with
  | |- context [readRekey _ ?st] =>
      destruct (readRekey_sealed st k (incSeq n) kw nw pk iv rest)
        as (s1 & E & R1 & W1 & B1 & H1 & X1 & T1 & D1);
      try (msimpl; first [reflexivity | assumption])
  end.
  rewrite LP in E. rewrite E. exists s1. split; [reflexivity|].
  msimpl. rewrite H1. rewrite !overwrite_length.
  repeat match goal with |- _ /\ _ => split end; assumption.
Qed.

End ReadPath.

(** * The small implementation satisfies the laws *)

Lemma byte_of_Z_mod (z : Z) : byte_of_Z (z mod 256) = byte_of_Z z.
Proof. unfold byte_of_Z. rewrite Z.mod_mod by lia. reflexivity. Qed.

Lemma bytes_eqb_refl (a : list byte) : Toy.bytes_eqb a a = true.
Proof.
  induction a as [|x a IH]; [reflexivity|].
  cbn [Toy.bytes_eqb]. rewrite (Byte.byte_dec_lb eq_refl). exact IH.
Qed.

Lemma Toy_tag_length (k n pt : list byte) : length (Toy.tag k n pt) = 16%nat.
Proof. reflexivity. Qed.

Lemma Toy_unmask (m : Z) (pt : list byte) :
  map (fun b => byte_of_Z (Z_of_byte b - m))
      (map (fun b => byte_of_Z (Z_of_byte b + m)) pt) = pt.
Proof.
  rewrite map_map. rewrite <- (map_id pt) at 2. apply map_ext. intro b.
  rewrite Z_of_byte_of_Z. rewrite <- byte_of_Z_mod.
  rewrite Zminus_mod_idemp_l.
  replace (Z_of_byte b + m - m) with (Z_of_byte b) by lia.
  rewrite byte_of_Z_mod. apply byte_of_Z_of_byte.
Qed.

Lemma Toy_open_seal (k n pt : list byte) :
  Toy.open k n (Toy.seal k n pt) = Some pt.
Proof.
  unfold Toy.open, Toy.seal.
  set (body := map (fun b => byte_of_Z (Z_of_byte b + Toy.mask k n)) pt).
  assert (LB : length body = length pt) by apply length_map.
  rewrite length_app, Toy_tag_length.
  replace (length body + 16 <? 16)%nat with false
    by (symmetry; apply Nat.ltb_ge; lia).
  replace (length body + 16 - 16)%nat with (length body) by lia.
  rewrite firstn_app, skipn_app, Nat.sub_diag, firstn_all, skipn_all.
  cbn [firstn skipn app]. rewrite app_nil_r. subst body.
  rewrite Toy_unmask, bytes_eqb_refl. reflexivity.
Qed.

Lemma Toy_AEADLaws : AEADLaws Toy.crypto.
Proof.
  split.
  - exact Toy_open_seal.
  - intros k n pt. cbn [Seal Overhead Toy.crypto]. unfold Toy.seal.
    rewrite length_app, length_map. reflexivity.
  - cbn. lia.
Qed.

Lemma Toy_KDFLaws : KDFLaws Toy.crypto.
Proof.
  split. intros secret salt info. cbn [hkdf_New Toy.crypto].
  unfold Toy.hkdf. rewrite length_map, length_seq. lia.
Qed.

Lemma Toy_mult_base (a b : list byte) :
  length a = length b ->
  Toy.mult a (Toy.base b) = Toy.mult b (Toy.base a).
Proof.
  revert b. induction a as [|x a IH]; intros [|y b] L; try discriminate L;
    [reflexivity|].
  injection L as L. unfold Toy.mult, Toy.base in *.
  cbn [map combine fst snd]. f_equal; [|apply IH; exact L].
  rewrite !Z_of_byte_of_Z. rewrite <- byte_of_Z_mod.
  rewrite Zplus_mod_idemp_r. symmetry. rewrite <- byte_of_Z_mod.
  rewrite Zplus_mod_idemp_r. f_equal. f_equal. lia.
Qed.

Lemma Toy_base_length (a : list byte) : length (Toy.base a) = length a.
Proof. apply length_map. Qed.

Lemma Toy_mult_length (a p : list byte) :
  length a = length p -> length (Toy.mult a p) = length a.
Proof.
  intro L. unfold Toy.mult. rewrite length_map, length_combine. lia.
Qed.

Lemma Toy_DHLaws : DHLaws Toy.crypto.
Proof.
  split. intros a b La Lb.
  unfold curve25519_ScalarMult, curve25519_ScalarBaseMult.
  cbn [ScalarMult ScalarBaseMult Toy.crypto].
  rewrite !(array32_id (Toy.base _)) by (rewrite Toy_base_length; assumption).
  rewrite Toy_mult_base by congruence. reflexivity.
Qed.

(** * Streams of records *)

(** What a reader meets on the carrier between two rekeys of its read
    half: DATA records and START_REKEY records. *)
Inductive record : Type :=
| DataRec (c : list byte)
| RekeyRec (pk iv : list byte).

(** The bytes of a sequence of records sealed under the key [k] from the
    nonce [n] on. *)
Fixpoint recordBytes {crypto : Crypto} (k n : list byte) (rs : list record)
  : list byte :=
  match rs with
  | [] => []
  | DataRec c :: rs' =>
      Seal k n (PutUint32 (Write_headerInt (length c)))
      ++ Seal k (incSeq n) c
      ++ recordBytes k (incSeq (incSeq n)) rs'
  | RekeyRec pk iv :: rs' =>
      sealedRecord k n pStartRekey (pk ++ iv)
      ++ recordBytes k (incSeq (incSeq n)) rs'
  end.

(** The user bytes they carry, and the number of rekey requests. *)
Fixpoint plain (rs : list record) : list byte :=
  match rs with
  | [] => []
  | DataRec c :: rs' => c ++ plain rs'
  | RekeyRec _ _ :: rs' => plain rs'
  end.

Fixpoint rekeys (rs : list record) : nat :=
  match rs with
  | [] => O
  | DataRec _ :: rs' => rekeys rs'
  | RekeyRec _ _ :: rs' => S (rekeys rs')
  end.

Definition record_ok (r : record) : Prop :=
  match r with
  | DataRec c => chunk_ok c
  | RekeyRec pk iv => length pk = 32%nat /\ length iv = 16%nat
  end.

(** A reader in step with the writer: its read half has the key and the
    nonce under which the records [rs] that the carrier will hand over
    were sealed, [pending] is the plaintext it has not handed out yet, and
    [rest] is what the carrier holds after the records. *)
Definition in_step {crypto : Crypto} (s : State) (k n pending : list byte)
  (rs : list record) (rest : list byte) : Prop :=
  read (conn s) = Some (mkHalf (Some k) n) /\
  half_key (write (conn s)) <> None /\
  readBuf (conn s) = pending /\
  length (headerBuf (conn s)) = (4 + Overhead)%nat /\
  concat (rx (netConn (conn s))) = recordBytes k n rs ++ rest.

(** The reader can answer the rekey requests among [rs]: its carrier
    accepts what it writes and its generator has a private key for each. *)
Definition can_answer (s : State) (rs : list record) : Prop :=
  (rekeys rs <> O -> tx_room (netConn (conn s)) = None) /\
  (32 * rekeys rs <= length (rand_Reader (env s)))%nat.

(** The carrier of [s] once it holds the segments [segs] to read. *)
Definition arrive (segs : list (list byte)) (s : State) : State :=
  mkState
    (set_netConn (mkNetConn segs (rx_end (netConn (conn s)))
                            (tx (netConn (conn s)))
                            (tx_room (netConn (conn s)))
                            (tx_fail (netConn (conn s))))
                 (conn s))
    (env s).

Section Stream.

Context {crypto : Crypto} {aead_laws : AEADLaws crypto}
        {kdf_laws : KDFLaws crypto}.

Ltac len :=
  repeat (progress (cbn [length concat app] in *;
                    rewrite ?length_app, ?length_firstn, ?length_skipn in *));
  lia.

Lemma recordBytes_app (k : list byte) (a b : list record) :
  forall n,
    recordBytes k n (a ++ b)
    = recordBytes k n a ++ recordBytes k (seq_after (length a) n) b.
Proof.
  induction a as [|r a IH]; intro n; [reflexivity|].
  cbn [app recordBytes length seq_after].
  destruct r; rewrite IH, <- ?app_assoc; reflexivity.
Qed.

Lemma recordBytes_data (k : list byte) (cs : list (list byte)) :
  forall n, recordBytes k n (map DataRec cs) = dataRecords k n cs.
Proof.
  induction cs as [|c cs IH]; intro n; [reflexivity|].
  cbn [map recordBytes dataRecords]. rewrite IH. reflexivity.
Qed.

Lemma plain_app (a b : list record) : plain (a ++ b) = plain a ++ plain b.
Proof.
  induction a as [|r a IH]; [reflexivity|].
  destruct r; cbn [app plain]; rewrite IH, ?app_assoc; reflexivity.
Qed.

Lemma plain_data (cs : list (list byte)) : plain (map DataRec cs) = concat cs.
Proof.
  induction cs as [|c cs IH]; [reflexivity|].
  cbn [map plain concat]. rewrite IH. reflexivity.
Qed.

Lemma rekeys_app (a b : list record) :
  rekeys (a ++ b) = (rekeys a + rekeys b)%nat.
Proof.
  induction a as [|r a IH]; [reflexivity|].
  destruct r; cbn [app rekeys]; rewrite IH; reflexivity.
Qed.

Lemma rekeys_data (cs : list (list byte)) : rekeys (map DataRec cs) = O.
Proof. induction cs as [|c cs IH]; [reflexivity|exact IH]. Qed.

Lemma seq_after_add (i j : nat) :
  forall n, seq_after (i + j) n = seq_after j (seq_after i n).
Proof.
  induction i as [|i IH]; intro n; [reflexivity|].
  cbn [Nat.add seq_after]. apply IH.
Qed.

(** One trip of Read to the carrier: the rekey requests at the head of
    the stream are answered and the first DATA record is opened; its first
    [len_buf] bytes are returned and the others are kept. *)
Lemma Read_retry_records (len_buf : nat) (k rest : list byte) :
  forall rs rfuel s n,
    in_step s k n [] rs rest -> can_answer s rs -> Forall record_ok rs ->
    plain rs <> [] -> (rekeys rs < rfuel)%nat ->
    exists s' c rs' n',
      Read_retry rfuel len_buf s = Normal (firstn len_buf c, None) s' /\
      in_step s' k n' (skipn len_buf c) rs' rest /\
      Forall record_ok rs' /\
      plain rs = c ++ plain rs' /\ c <> [] /\
      (rekeys rs' <= rekeys rs)%nat /\
      seq_after (length rs') n' = seq_after (length rs) n /\
      tx_room (netConn (conn s')) = tx_room (netConn (conn s)) /\
      rand_Reader (env s')
      = skipn (32 * (rekeys rs - rekeys rs')) (rand_Reader (env s)).
Proof.
  induction rs as [|r rs IH]; intros rfuel s n I A OK P F.
  - cbn [plain] in P. congruence.
  - destruct rfuel as [|f]; [lia|].
    destruct I as (R & W & B & HB & RX).
    pose proof (Forall_inv OK) as Or. apply Forall_inv_tail in OK.
    destruct r as [c|pk iv].
    + (* a DATA record *)
      destruct Or as [Lc Lc'].
      cbn [recordBytes] in RX. rewrite <- !app_assoc in RX.
      destruct (Read_retry_data s k n c _ f len_buf R W B HB RX)
        as (u' & hb' & C' & _ & TR' & HB' & E).
      { destruct c; [cbn [length] in Lc; lia|discriminate]. }
      { exact Lc'. }
      eexists _, c, rs, (incSeq (incSeq n)).
      split; [exact E|]. msimpl.
      split; [unfold in_step; msimpl; repeat split; assumption|].
      split; [exact OK|]. split; [reflexivity|].
      split; [destruct c; [cbn [length] in Lc; lia|discriminate]|].
      split; [cbn [rekeys]; lia|]. split; [reflexivity|].
      split; [exact TR'|].
      cbn [rekeys]. rewrite Nat.sub_diag. reflexivity.
    + (* a rekey request *)
      destruct Or as [Lpk Liv]. destruct A as [AT AR].
      cbn [rekeys] in *.
      destruct (write (conn s)) as [[[kw|] nw]|] eqn:Ew;
        cbn [half_key aead] in W; try congruence.
      cbn [recordBytes] in RX. rewrite <- app_assoc in RX.
      destruct (Read_retry_start_rekey s k n kw nw pk iv _ f len_buf
                  R Ew HB RX Lpk Liv)
        as (s1 & E & R1 & W1 & B1 & H1 & X1 & T1 & D1);
        [lia|apply AT; discriminate|].
      destruct (IH f s1 (incSeq (incSeq n)))
        as (s' & c & rs' & n' & E' & I' & OK' & P' & NE & LE & SQ & TR & RD).
      { unfold in_step. rewrite B1, B. repeat split; assumption. }
      { split; [intros _; exact T1|].
        rewrite D1, length_skipn. lia. }
      { exact OK. }
      { exact P. }
      { lia. }
      exists s', c, rs', n'.
      split; [rewrite E; exact E'|]. split; [exact I'|].
      split; [exact OK'|]. split; [exact P'|]. split; [exact NE|].
      split; [lia|]. split; [exact SQ|].
      split; [rewrite TR, T1; symmetry; apply AT; discriminate|].
      rewrite RD, D1, skipn_skipn. f_equal. lia.
Qed.

(** Reading until the pending plaintext and the plaintext of all the
    records are consumed yields them in order, whatever the sizes of the
    buffers passed to Read, as long as none is empty. *)
Lemma readUntil_records (rfuel : nat) (sz : nat -> nat) (need : nat)
  (k rest : list byte) :
  (forall i, 0 < sz i)%nat ->
  forall fuel s n pending rs acc,
    in_step s k n pending rs rest -> can_answer s rs ->
    Forall record_ok rs -> (rekeys rs < rfuel)%nat ->
    (length pending + length (plain rs) <= fuel)%nat ->
    need = (length acc + length pending + length (plain rs))%nat ->
    exists s' n' rs',
      readUntil fuel rfuel sz need acc s
      = Normal (acc ++ pending ++ plain rs, None) s' /\
      in_step s' k n' [] rs' rest /\
      Forall record_ok rs' /\ plain rs' = [] /\
      (rekeys rs' <= rekeys rs)%nat /\
      seq_after (length rs') n' = seq_after (length rs) n /\
      tx_room (netConn (conn s')) = tx_room (netConn (conn s)) /\
      rand_Reader (env s')
      = skipn (32 * (rekeys rs - rekeys rs')) (rand_Reader (env s)).
Proof.
  intros SZ.
  assert (DONE : forall fuel s n rs acc,
    in_step s k n [] rs rest -> Forall record_ok rs -> plain rs = [] ->
    need = (length acc + length (@nil byte) + length (plain rs))%nat ->
    exists s' n' rs',
      readUntil fuel rfuel sz need acc s
      = Normal (acc ++ [] ++ plain rs, None) s' /\
      in_step s' k n' [] rs' rest /\
      Forall record_ok rs' /\ plain rs' = [] /\
      (rekeys rs' <= rekeys rs)%nat /\
      seq_after (length rs') n' = seq_after (length rs) n /\
      tx_room (netConn (conn s')) = tx_room (netConn (conn s)) /\
      rand_Reader (env s')
      = skipn (32 * (rekeys rs - rekeys rs')) (rand_Reader (env s))).
  { intros fuel s n rs acc I OK P N. exists s, n, rs.
    rewrite P in *. cbn [length app] in *.
    assert (E : readUntil fuel rfuel sz need acc s = Normal (acc, None) s).
    { destruct fuel; cbn [readUntil];
        replace (need <=? length acc)%nat with true
          by (symmetry; apply Nat.leb_le; lia); reflexivity. }
    rewrite E, app_nil_r.
    repeat match goal with |- _ /\ _ => split end;
      try reflexivity; try assumption.
    rewrite Nat.sub_diag. reflexivity. }
  induction fuel as [|fuel IH]; intros s n pending rs acc I A OK RF F N.
  - destruct pending; [|cbn [length] in F; lia].
    apply DONE; try assumption.
    destruct (plain rs); [reflexivity|cbn [length] in F; lia].
  - destruct (Nat.eq_dec (length pending + length (plain rs)) 0) as [Z|NZ].
    + destruct pending; [|cbn [length] in Z; lia].
      apply DONE; try assumption.
      destruct (plain rs); [reflexivity|cbn [length] in Z; lia].
    + cbn [readUntil].
      replace (need <=? length acc)%nat with false
        by (symmetry; apply Nat.leb_gt; lia).
      pose proof (SZ (length acc)) as Hz. set (z := sz (length acc)) in *.
      unfold bind at 1.
      destruct pending as [|p pending].
      * (* a trip to the carrier *)
        assert (P : plain rs <> [])
          by (intro P; rewrite P in NZ; cbn [length] in NZ; lia).
        pose proof I as (_ & _ & B & _).
        rewrite (Read_empty _ _ _ B).
        destruct (Read_retry_records z k rest rs rfuel s n I A OK P RF)
          as (s1 & c & rs1 & n1 & E & I1 & OK1 & P1 & NE & LE & SQ & TR & RD).
        rewrite E. cbn beta iota.
        assert (Lc : (0 < length c)%nat)
          by (destruct c; [congruence|cbn [length]; lia]).
        destruct (IH s1 n1 (skipn z c) rs1 (acc ++ firstn z c))
          as (s' & n' & rs' & E' & I' & OK' & P' & LE' & SQ' & TR' & RD');
          try assumption.
        { destruct A as [AT AR]. split.
          - intro NZ1. rewrite TR. apply AT. lia.
          - rewrite RD, length_skipn. lia. }
        { lia. }
        { rewrite P1 in F. len. }
        { rewrite P1 in N. len. }
        exists s', n', rs'. rewrite E'.
        split.
        { f_equal. f_equal. rewrite P1. cbn [app].
          rewrite <- !app_assoc.
          rewrite (app_assoc (firstn z c)), firstn_skipn. reflexivity. }
        split; [exact I'|]. split; [exact OK'|]. split; [exact P'|].
        split; [lia|]. split; [congruence|]. split; [congruence|].
        rewrite RD', RD, skipn_skipn. f_equal. lia.
      * (* pending plaintext is handed out *)
        pose proof I as (R & W & B & HB & RX).
        rewrite (Read_drain s (p :: pending) rfuel z B) by
          (try discriminate; exact Hz).
        cbn beta iota.
        destruct (IH (mkState (set_readBuf (skipn z (p :: pending)) (conn s))
                              (env s))
                     n (skipn z (p :: pending)) rs
                     (acc ++ firstn z (p :: pending)))
          as (s' & n' & rs' & E' & I' & OK' & P' & LE' & SQ' & TR' & RD');
          try assumption.
        { unfold in_step. msimpl. repeat split; assumption. }
        { len. }
        { len. }
        exists s', n', rs'. rewrite E'.
        split.
        { f_equal. f_equal. rewrite <- !app_assoc.
          rewrite (app_assoc (firstn z (p :: pending))), firstn_skipn.
          reflexivity. }
        repeat match goal with |- _ /\ _ => split end; assumption.
Qed.

End Stream.

(** * Round trips *)

(** The guard of Write under which it starts a rekey. *)
Definition rekey_due (s : State) : bool :=
  server (conn s)
  && match nextPeerKey (conn s) with None => true | _ => false end
  && ((rekeyLeft (conn s) <=? 0) || (rekeyAfter (conn s) <? now (env s))).

Section RoundTrip.

Context {crypto : Crypto} {aead_laws : AEADLaws crypto}
        {kdf_laws : KDFLaws crypto}.

(** The records that a Write which returned without error put on the
    carrier: a START_REKEY record when a rekey was due, then one DATA record
    per chunk of the buffer. *)
Lemma Write_records (fuel : nat) (buf : list byte) (s s' : State) (cnt : nat)
  (k n : list byte) :
  write (conn s) = Some (mkHalf (Some k) n) ->
  (0 < length (writeBuf (conn s)))%nat ->
  Z.of_nat (length (writeBuf (conn s))) < 2 ^ 24 ->
  Write fuel buf s = Normal (cnt, None) s' ->
  exists rs,
    cnt = length buf /\ plain rs = buf /\ Forall record_ok rs /\
    rekeys rs = (if rekey_due s then 1 else 0)%nat /\
    tx (netConn (conn s')) = tx (netConn (conn s)) ++ recordBytes k n rs /\
    rx (netConn (conn s')) = rx (netConn (conn s)) /\
    write (conn s') = Some (mkHalf (Some k) (seq_after (length rs) n)) /\
    length (writeBuf (conn s')) = length (writeBuf (conn s)) /\
    server (conn s') = server (conn s) /\
    read (conn s') = read (conn s).
Proof.
  intros W M M' H.
  assert (OK : forall m, Forall record_ok (map DataRec (chunks m (length (writeBuf (conn s))) buf))).
  { intro m. apply Forall_map.
    eapply Forall_impl; [|apply chunks_bound; exact M].
    intros c [L1 L2]. split; [exact L1|]. cbn beta. lia. }
  destruct s as [c e]. destruct c. cbn [conn write writeBuf] in *. subst.
  unfold Write in H. unfold rekey_due. msimpl.
  destruct server0, nextPeerKey0 as [pk|]; minv H; bool_facts.
  all: try match goal with
    | S : startRekey _ = Normal _ _ |- _ =>
        apply startRekey_inv with (k := k) (n := n) in S; [|reflexivity];
        destruct S as (u1 & wb1 & -> & L1 & Lp & Li & T1 & R1 & _);
        apply Write_loop_inv with (k := k) (n := incSeq (incSeq n)) in H;
          [|reflexivity];
        destruct H as (u' & wb' & n' & -> & L & S);
        destruct (S eq_refl) as (-> & C & T & R & _ & ->); msimpl;
        rewrite L1 in C, T |- *;
        exists (RekeyRec (curve25519_ScalarBaseMult
                            (firstn 32 (rand_Reader e)))
                         (firstn 16 (skipn 32 (rand_Reader e)))
                :: map DataRec (chunks fuel (length writeBuf0) buf));
        cbn [plain rekeys recordBytes length seq_after];
        rewrite plain_data, rekeys_data, recordBytes_data, length_map;
        repeat match goal with |- _ /\ _ => split end;
          try reflexivity; try assumption; try congruence;
        [ constructor; [|apply OK]; split;
          [unfold curve25519_ScalarBaseMult; apply array32_length|assumption]
        | rewrite T, T1, <- !app_assoc; reflexivity ]
    end.
  all: apply Write_loop_inv with (k := k) (n := n) in H; [|reflexivity].
  all: destruct H as (u' & wb' & n' & -> & L & S).
  all: destruct (S eq_refl) as (-> & C & T & R & _ & ->); msimpl.
  all: exists (map DataRec (chunks fuel (length writeBuf0) buf)).
  all: rewrite plain_data, rekeys_data, recordBytes_data, length_map.
  all: repeat match goal with |- _ /\ _ => split end;
      try reflexivity; try assumption; try apply OK.
Qed.

(** Two connections whose halves are in step: what the writer writes,
    the reader reads, however the carrier cuts it and whatever the sizes of
    the buffers the reader passes. *)
Lemma linked_roundtrip (sw sw' sr : State) (k n B : list byte)
  (segs : list (list byte)) (fuel cnt rfuel fuel' : nat) (sz : nat -> nat) :
  write (conn sw) = Some (mkHalf (Some k) n) ->
  (0 < length (writeBuf (conn sw)))%nat ->
  Z.of_nat (length (writeBuf (conn sw))) < 2 ^ 24 ->
  Write fuel B sw = Normal (cnt, None) sw' ->
  in_step sr k n [] [] [] ->
  tx (netConn (conn sw')) = tx (netConn (conn sw)) ++ concat segs ->
  (rekey_due sw = true ->
   tx_room (netConn (conn sr)) = None /\
   (32 <= length (rand_Reader (env sr)))%nat) ->
  (2 <= rfuel)%nat -> (forall i, 0 < sz i)%nat -> (length B <= fuel')%nat ->
  cnt = length B /\
  exists s',
    readUntil fuel' rfuel sz (length B) [] (arrive segs sr)
    = Normal (B, None) s'.
Proof.
  intros W M M' H I T A RF SZ F.
  destruct (Write_records fuel B sw sw' cnt k n W M M' H)
    as (rs & C & P & OK & RK & T' & _).
  split; [exact C|].
  rewrite T' in T. apply app_inv_head in T.
  destruct I as (R & Wr & Bf & HB & _).
  destruct (readUntil_records rfuel sz (length B) k [] SZ fuel'
              (arrive segs sr) n [] rs [])
    as (s' & n' & rs' & E & _).
  - unfold in_step, arrive. msimpl. rewrite app_nil_r.
    repeat split; try assumption. congruence.
  - unfold can_answer, arrive. msimpl. rewrite RK.
    destruct (rekey_due sw).
    + destruct (A eq_refl) as [A1 A2]. split; [intros _; exact A1|lia].
    + split; [congruence|lia].
  - exact OK.
  - rewrite RK. destruct (rekey_due sw); lia.
  - rewrite P. cbn [length]. lia.
  - rewrite P. reflexivity.
  - exists s'. rewrite E, P. reflexivity.
Qed.

Context {dh_laws : DHLaws crypto}.

(** After a handshake over a faithful carrier, what the server writes the
    client reads: when Write returns without error it returns the length of
    the buffer, and the client, handed the bytes that Write put on the
    carrier in whatever segments, gets the buffer back by reading until it
    holds that many bytes. When the write starts a rekey the client
    answers it on the way, which takes a carrier that accepts its record and
    32 bytes from the generator. *)
Theorem server_to_client_roundtrip (uc us : NetConn) (ec es : Env)
  (sc ss ss' : State) (B : list byte) (segs : list (list byte))
  (fuel cnt rfuel fuel' : nat) (sz : nat -> nat) :
  handshake uc us ec es sc ss ->
  Write fuel B ss = Normal (cnt, None) ss' ->
  tx (netConn (conn ss')) = tx (netConn (conn ss)) ++ concat segs ->
  (rekey_due ss = true ->
   tx_room (netConn (conn sc)) = None /\
   (32 <= length (rand_Reader (env sc)))%nat) ->
  (2 <= rfuel)%nat -> (forall i, 0 < sz i)%nat -> (length B <= fuel')%nat ->
  cnt = length B /\
  exists s',
    readUntil fuel' rfuel sz (length B) [] (arrive segs sc)
    = Normal (B, None) s'.
Proof.
  intros HS H T A RF SZ F.
  destruct (handshake_agreement _ _ _ _ _ _ HS)
    as (privC & privS & sh & iv & uc' & us' & _ & _ & _ & _ & _ & _ & _ & _
        & Ec & Es & _ & _ & Xc & _).
  apply (linked_roundtrip ss ss' sc (K0 sh iv) (make NonceSize) B segs
           fuel cnt rfuel fuel' sz); try assumption.
  - rewrite Es. reflexivity.
  - rewrite Es. cbn. lia.
  - rewrite Es. cbn. lia.
  - unfold in_step. rewrite Ec. cbn [established read write readBuf headerBuf
      netConn half_key aead recordBytes app].
    repeat split; try assumption; try discriminate. apply make_length.
Qed.

(** The same from the client to the server; the client never starts a
    rekey. *)
Theorem client_to_server_roundtrip (uc us : NetConn) (ec es : Env)
  (sc sc' ss : State) (B : list byte) (segs : list (list byte))
  (fuel cnt rfuel fuel' : nat) (sz : nat -> nat) :
  handshake uc us ec es sc ss ->
  Write fuel B sc = Normal (cnt, None) sc' ->
  tx (netConn (conn sc')) = tx (netConn (conn sc)) ++ concat segs ->
  (1 <= rfuel)%nat -> (forall i, 0 < sz i)%nat -> (length B <= fuel')%nat ->
  cnt = length B /\
  exists s',
    readUntil fuel' rfuel sz (length B) [] (arrive segs ss)
    = Normal (B, None) s'.
Proof.
  intros HS H T RF SZ F.
  destruct (handshake_agreement _ _ _ _ _ _ HS)
    as (privC & privS & sh & iv & uc' & us' & _ & _ & _ & _ & _ & _ & _ & _
        & Ec & Es & _ & _ & _ & Xs & _).
  assert (W : write (conn sc) = Some (mkHalf (Some (K1 sh iv)) (make NonceSize)))
    by (rewrite Ec; reflexivity).
  assert (ND : rekey_due sc = false)
    by (unfold rekey_due; rewrite Ec; reflexivity).
  destruct (Write_records fuel B sc sc' cnt _ _ W)
    as (rs & C & P & OK & RK & T' & _); try assumption.
  { rewrite Ec. cbn. lia. }
  { rewrite Ec. cbn. lia. }
  split; [exact C|].
  rewrite T' in T. apply app_inv_head in T. rewrite ND in RK.
  destruct (readUntil_records rfuel sz (length B) (K1 sh iv) [] SZ fuel'
              (arrive segs ss) (make NonceSize) [] rs [])
    as (s' & n' & rs' & E & _).
  - unfold in_step, arrive. rewrite Es.
    cbn [established read write readBuf headerBuf netConn half_key aead
         conn set_netConn rx].
    rewrite app_nil_r.
    repeat split; try discriminate; try congruence. apply make_length.
  - unfold can_answer. rewrite RK. split; [congruence|lia].
  - exact OK.
  - lia.
  - rewrite P. cbn [length]. lia.
  - rewrite P. reflexivity.
  - exists s'. rewrite E, P. reflexivity.
Qed.

End RoundTrip.

(** A server whose byte budget is zero: its first Write starts a rekey. *)
Module Eager.

Definition crypto := Run.crypto.

Definition world0 : Env :=
  mkEnv 128 0 (3600 * 1000000000) (rand_Reader (Toy.world 100 128)) 0.

Definition server0 : State :=
  mkState (fst (NewConn (Toy.pipe [tx (netConn (conn Run.client1))]))) world0.

Definition server1 : State :=
  Eval vm_compute in
    match Negotiate (crypto := crypto) true server0 with
    | Normal _ s => s
    | _ => server0
    end.

Definition server2 : State :=
  Eval vm_compute in
    match Write (crypto := crypto) 1 Damaged.hello server1 with
    | Normal _ s => s
    | _ => server1
    end.

(** What the Write put on the carrier: a START_REKEY record and the DATA
    record of "hello". *)
Definition sent : list byte :=
  Eval vm_compute in
    skipn (length (tx (netConn (conn server1))))
          (tx (netConn (conn server2))).

End Eager.

Lemma server_to_client_roundtrip_witness :
  5%nat = length Damaged.hello /\
  exists s',
    readUntil (crypto := Eager.crypto) 5 2 (fun _ => 2%nat) 5 []
      (arrive [firstn 7 Eager.sent; skipn 7 Eager.sent] Run.client1)
    = Normal (Damaged.hello, None) s'.
Proof.
  apply (server_to_client_roundtrip
           (crypto := Eager.crypto) (aead_laws := Toy_AEADLaws)
           (kdf_laws := Toy_KDFLaws) (dh_laws := Toy_DHLaws)
           (Toy.pipe [Run.server_hello])
           (Toy.pipe [tx (netConn (conn Run.client1))])
           (Toy.world 1 128) Eager.world0
           Run.client1 Eager.server1 Eager.server2 Damaged.hello
           [firstn 7 Eager.sent; skipn 7 Eager.sent] 1 5 2 5
           (fun _ => 2%nat)).
  - unfold handshake. repeat split; vm_compute; reflexivity.
  - vm_compute. reflexivity.
  - vm_compute. reflexivity.
  - intros _. split; [reflexivity|vm_compute; lia].
  - lia.
  - intros _. lia.
  - vm_compute. lia.
Defined.

(** The client of the run after it wrote "hello". *)
Module Upstream.

Definition crypto := Run.crypto.

Definition client2 : State :=
  Eval vm_compute in
    match Write (crypto := crypto) 1 Damaged.hello Run.client1 with
    | Normal _ s => s
    | _ => Run.client1
    end.

Definition sent : list byte :=
  Eval vm_compute in
    skipn (length (tx (netConn (conn Run.client1))))
          (tx (netConn (conn client2))).

End Upstream.

Lemma client_to_server_roundtrip_witness :
  5%nat = length Damaged.hello /\
  exists s',
    readUntil (crypto := Upstream.crypto) 5 1 (fun _ => 3%nat) 5 []
      (arrive [firstn 30 Upstream.sent; skipn 30 Upstream.sent] Run.server1)
    = Normal (Damaged.hello, None) s'.
Proof.
  apply (client_to_server_roundtrip
           (crypto := Upstream.crypto) (aead_laws := Toy_AEADLaws)
           (kdf_laws := Toy_KDFLaws) (dh_laws := Toy_DHLaws)
           (Toy.pipe [Run.server_hello])
           (Toy.pipe [tx (netConn (conn Run.client1))])
           (Toy.world 1 128) (Toy.world 100 128)
           Run.client1 Upstream.client2 Run.server1 Damaged.hello
           [firstn 30 Upstream.sent; skipn 30 Upstream.sent] 1 5 1 5
           (fun _ => 3%nat)).
  - unfold handshake. repeat split; vm_compute; reflexivity.
  - vm_compute. reflexivity.
  - vm_compute. reflexivity.
  - lia.
  - intros _. lia.
  - vm_compute. lia.
Defined.

(** * Messages *)

Section MessageTrip.

Context {crypto : Crypto} {aead_laws : AEADLaws crypto}
        {kdf_laws : KDFLaws crypto}.

(** io.ReadFull on a connection whose Reads all succeed is the loop that
    reads until the buffer is full, each Read being passed what is left of
    the buffer. *)
Lemma ReadFull_readUntil (rfuel m : nat) :
  forall fuel acc s r s',
    readUntil fuel rfuel (fun got => Nat.max 1 (m - got)) m acc s
    = Normal (r, None) s' ->
    ReadAtLeast_loop fuel rfuel m m acc s = Normal (r, None) s'.
Proof.
  induction fuel as [|fuel IH]; intros acc s r s' H;
    cbn [readUntil ReadAtLeast_loop] in *.
  - destruct (m <=? length acc)%nat; [exact H|discriminate H].
  - destruct (m <=? length acc)%nat eqn:E; [exact H|].
    apply Nat.leb_gt in E.
    replace (Nat.max 1 (m - length acc)) with (m - length acc)%nat in H by lia.
    unfold bind in *.
    destruct (Read rfuel (m - length acc) s) as [[d [e|]] s1| |];
      try discriminate H.
    apply IH. exact H.
Qed.

(** The records that a SendMessage which returned nil put on the
    carrier: those of the length prefix, then those of the message. *)
Lemma SendMessage_records (fuel : nat) (msg : list byte) (s s' : State)
  (k n : list byte) :
  write (conn s) = Some (mkHalf (Some k) n) ->
  (0 < length (writeBuf (conn s)))%nat ->
  Z.of_nat (length (writeBuf (conn s))) < 2 ^ 24 ->
  SendMessage fuel msg s = Normal None s' ->
  exists rs1 rs2,
    plain rs1 = PutUint32 (uint32 (Z.of_nat (length msg))) /\
    plain rs2 = msg /\
    Forall record_ok rs1 /\ Forall record_ok rs2 /\
    (rekeys rs1 <= 1)%nat /\ (rekeys rs2 <= 1)%nat /\
    (server (conn s) = false -> rekeys rs1 = O /\ rekeys rs2 = O) /\
    tx (netConn (conn s'))
    = tx (netConn (conn s)) ++ recordBytes k n (rs1 ++ rs2).
Proof.
  intros W M M' H. unfold SendMessage, bind in H.
  destruct (Write fuel (PutUint32 (uint32 (Z.of_nat (length msg)))) s)
    as [[c1 [e1|]] s1| |] eqn:W1; try discriminate H.
  destruct (Write_records _ _ _ _ _ k n W M M' W1)
    as (rs1 & _ & P1 & OK1 & RK1 & T1 & _ & Wr1 & L1 & S1 & _).
  destruct (Write fuel msg s1) as [[c2 [e2|]] s2| |] eqn:W2;
    try discriminate H.
  destruct (Write_records fuel msg s1 s2 c2 k _ Wr1)
    as (rs2 & C2 & P2 & OK2 & RK2 & T2 & _);
    [rewrite L1; assumption|rewrite L1; assumption|exact W2|].
  subst c2. rewrite Nat.eqb_refl in H. cbn [negb] in H.
  apply Normal_inj in H. destruct H as [_ <-].
  exists rs1, rs2.
  repeat match goal with |- _ /\ _ => split end; try assumption.
  - rewrite RK1. destruct (rekey_due s); lia.
  - rewrite RK2. destruct (rekey_due s1); lia.
  - intro C. rewrite RK1, RK2. unfold rekey_due. rewrite S1, C.
    split; reflexivity.
  - rewrite T2, T1, recordBytes_app, <- app_assoc. reflexivity.
Qed.

(** Two connections whose halves are in step: the message that one
    sends is the message that the other gets. *)
Lemma linked_message (sw sw' sr : State) (k n msg : list byte)
  (segs : list (list byte)) (fuel gfuel rfuel : nat) :
  write (conn sw) = Some (mkHalf (Some k) n) ->
  (0 < length (writeBuf (conn sw)))%nat ->
  Z.of_nat (length (writeBuf (conn sw))) < 2 ^ 24 ->
  SendMessage fuel msg sw = Normal None sw' ->
  Z.of_nat (length msg) < 2 ^ 32 ->
  in_step sr k n [] [] [] ->
  tx (netConn (conn sw')) = tx (netConn (conn sw)) ++ concat segs ->
  (server (conn sw) = true ->
   tx_room (netConn (conn sr)) = None /\
   (64 <= length (rand_Reader (env sr)))%nat /\ (3 <= rfuel)%nat) ->
  (1 <= rfuel)%nat -> (4 <= gfuel)%nat -> (length msg <= gfuel)%nat ->
  exists s',
    GetMessage gfuel rfuel (arrive segs sr) = Normal (msg, None) s'.
Proof.
  intros W M M' H LM I T A RF G4 GM.
  destruct (SendMessage_records fuel msg sw sw' k n W M M' H)
    as (rs1 & rs2 & P1 & P2 & OK1 & OK2 & K1 & K2 & KC & T').
  rewrite T' in T. apply app_inv_head in T.
  rewrite recordBytes_app in T.
  destruct I as (R & Wr & Bf & HB & _).
  assert (RES : (rekeys rs1 = O /\ rekeys rs2 = O) \/
                (tx_room (netConn (conn sr)) = None /\
                 (64 <= length (rand_Reader (env sr)))%nat /\
                 (3 <= rfuel)%nat)).
  { destruct (server (conn sw)); [right; apply A; reflexivity|].
    left; apply KC; reflexivity. }
  (* the length prefix *)
  destruct (readUntil_records rfuel (fun got => Nat.max 1 (4 - got)) 4 k
              (recordBytes k (seq_after (length rs1) n) rs2 ++ [])
              (fun i => Nat.le_trans _ _ _ (le_n 1) (Nat.le_max_l 1 (4 - i)))
              gfuel (arrive segs sr) n [] rs1 [])
    as (s1 & n1 & rs1' & E1 & I1 & OK1' & P1' & LE1 & SQ1 & TR1 & RD1).
  { unfold in_step, arrive. msimpl. rewrite app_nil_r.
    repeat split; try assumption. congruence. }
  { unfold can_answer, arrive. msimpl.
    destruct RES as [[Z1 Z2]|(A1 & A2 & A3)].
    - rewrite Z1. split; [congruence|lia].
    - split; [intros _; exact A1|lia]. }
  { exact OK1. }
  { destruct RES as [[Z1 Z2]|(A1 & A2 & A3)]; lia. }
  { rewrite P1, length_PutUint32. cbn [length]. lia. }
  { rewrite P1, length_PutUint32. reflexivity. }
  apply ReadFull_readUntil in E1.
  (* the message *)
  destruct (readUntil_records rfuel
              (fun got => Nat.max 1 (length msg - got)) (length msg) k []
              (fun i => Nat.le_trans _ _ _ (le_n 1)
                          (Nat.le_max_l 1 (length msg - i)))
              gfuel s1 n1 [] (rs1' ++ rs2) [])
    as (s2 & n2 & rs2' & E2 & _).
  { destruct I1 as (R1 & W1 & B1 & H1 & X1).
    unfold in_step. rewrite recordBytes_app, SQ1, <- app_assoc.
    repeat split; assumption. }
  { unfold can_answer. rewrite rekeys_app, TR1, RD1, length_skipn.
    unfold arrive. msimpl.
    destruct RES as [[Z1 Z2]|(A1 & A2 & A3)].
    - split; [lia|lia].
    - split; [intros _; exact A1|lia]. }
  { apply Forall_app. split; assumption. }
  { rewrite rekeys_app. destruct RES as [[Z1 Z2]|(A1 & A2 & A3)]; lia. }
  { rewrite plain_app, P1', P2. cbn [length app]. lia. }
  { rewrite plain_app, P1', P2. reflexivity. }
  apply ReadFull_readUntil in E2.
  rewrite plain_app, P1', P2 in E2. cbn [app] in E1, E2.
  exists s2. unfold GetMessage, Conn_ReadFull, bind.
  rewrite E1, P1. cbn beta iota.
  rewrite Uint32_PutUint32 by (unfold uint32; apply Z.mod_pos_bound; lia).
  rewrite uint32_small by lia. rewrite Nat2Z.id.
  rewrite E2. cbn beta iota. rewrite Nat.eqb_refl. reflexivity.
Qed.

Context {dh_laws : DHLaws crypto}.

(** After a handshake over a faithful carrier, the message that the
    client sends with SendMessage, shorter than 2^32 bytes, is the message
    that GetMessage returns on the server, however the carrier cuts the
    bytes. *)
Theorem client_to_server_message (uc us : NetConn) (ec es : Env)
  (sc sc' ss : State) (msg : list byte) (segs : list (list byte))
  (fuel gfuel rfuel : nat) :
  handshake uc us ec es sc ss ->
  SendMessage fuel msg sc = Normal None sc' ->
  Z.of_nat (length msg) < 2 ^ 32 ->
  tx (netConn (conn sc')) = tx (netConn (conn sc)) ++ concat segs ->
  (1 <= rfuel)%nat -> (4 <= gfuel)%nat -> (length msg <= gfuel)%nat ->
  exists s',
    GetMessage gfuel rfuel (arrive segs ss) = Normal (msg, None) s'.
Proof.
  intros HS H LM T RF G4 GM.
  destruct (handshake_agreement _ _ _ _ _ _ HS)
    as (privC & privS & sh & iv & uc' & us' & _ & _ & _ & _ & _ & _ & _ & _
        & Ec & Es & _ & _ & _ & Xs & _).
  apply (linked_message sc sc' ss (K1 sh iv) (make NonceSize) msg segs
           fuel gfuel rfuel); try assumption.
  - rewrite Ec. reflexivity.
  - rewrite Ec. cbn. lia.
  - rewrite Ec. cbn. lia.
  - unfold in_step. rewrite Es. cbn [established read write readBuf headerBuf
      netConn half_key aead recordBytes app].
    repeat split; try assumption; try discriminate. apply make_length.
  - rewrite Ec. cbn [established server]. discriminate.
Qed.

(** The same from the server to the client, who answers on the way the
    rekey requests that the two Writes of SendMessage may start: this takes
    a carrier that accepts its records and 32 bytes from the generator for
    each. *)
Theorem server_to_client_message (uc us : NetConn) (ec es : Env)
  (sc ss ss' : State) (msg : list byte) (segs : list (list byte))
  (fuel gfuel rfuel : nat) :
  handshake uc us ec es sc ss ->
  SendMessage fuel msg ss = Normal None ss' ->
  Z.of_nat (length msg) < 2 ^ 32 ->
  tx (netConn (conn ss')) = tx (netConn (conn ss)) ++ concat segs ->
  tx_room (netConn (conn sc)) = None ->
  (64 <= length (rand_Reader (env sc)))%nat ->
  (3 <= rfuel)%nat -> (4 <= gfuel)%nat -> (length msg <= gfuel)%nat ->
  exists s',
    GetMessage gfuel rfuel (arrive segs sc) = Normal (msg, None) s'.
Proof.
  intros HS H LM T TR RD RF G4 GM.
  destruct (handshake_agreement _ _ _ _ _ _ HS)
    as (privC & privS & sh & iv & uc' & us' & _ & _ & _ & _ & _ & _ & _ & _
        & Ec & Es & _ & _ & Xc & _).
  apply (linked_message ss ss' sc (K0 sh iv) (make NonceSize) msg segs
           fuel gfuel rfuel); try assumption.
  - rewrite Es. reflexivity.
  - rewrite Es. cbn. lia.
  - rewrite Es. cbn. lia.
  - unfold in_step. rewrite Ec. cbn [established read write readBuf headerBuf
      netConn half_key aead recordBytes app].
    repeat split; try assumption; try discriminate. apply make_length.
  - intros _. repeat split; assumption.
  - lia.
Qed.

End MessageTrip.
